(** * vivarium.framework.components: configuration interpreter and
      ComponentManager, embedded from [src/vivarium/framework/components.py].

    Python objects are references: a component is known by the identity
    ([id(...)]) of the object it denotes, and what the manager can observe
    of an object (is it iterable, which attributes does it expose, what
    does [==] answer, what does its [setup] return) is looked up in a
    [world].  Effects on collaborators that live outside the module (the
    global [config] store, the callbacks of components, the constructors
    of the dataset manager, the import system) are recorded as events, in
    program order. *)

From Stdlib Require Import List String Ascii ZArith Bool Arith Lia.
Import ListNotations.
Open Scope string_scope.
Open Scope list_scope.

(** ** Exceptions *)

(** The exceptions that leave the functions of the module.  The first two
    are the module's own classes ([ParsingError] derives from
    [ComponentConfigError]); the others are raised by the interpreter or
    by a callback. *)
Inductive exn : Type :=
| ComponentConfigError (msg : string)
| ParsingError (msg : string)
| SyntaxError
| TypeError
| AttributeError
| IndexError
| ImportError (path : string)
| CallbackError (component : nat).

(** [isinstance(e, ComponentConfigError)] *)
Definition is_config_error (e : exn) : bool :=
  match e with
  | ComponentConfigError _ | ParsingError _ => true
  | _ => false
  end.

(** ** Configuration data *)

(** A nested mapping such as a class's [configuration_defaults]. *)
#[warnings="-register-all"]
Inductive conf : Type :=
| ConfInt (z : Z)
| ConfStr (s : string)
| ConfMap (items : list (string * conf)).

(** ** The setup pass of the ComponentManager *)

Module Lifecycle.

(** An entry of [self.components]: [None] or a reference to an object. *)
Inductive pyref : Type :=
| PyNone
| Obj (id : nat).

(** What [component.setup(builder)] does: return a value ([None] or a
    sequence of further components) or raise. *)
Inductive setup_outcome : Type :=
| SetupReturns (sub_components : option (list pyref))
| SetupRaises.

(** What the setup pass can observe of one object. *)
Record component : Type := {
  (** [Some xs] when [isinstance(component, Iterable)]; iterating yields
      [xs], every time: containers are sequences, an iterator that can be
      consumed only once is outside this model *)
  iter_elems : option (list pyref);
  (** [Some d] when [hasattr(component, 'configuration_defaults')] *)
  configuration_defaults : option conf;
  (** [Some r] when [hasattr(component, 'setup')] *)
  setup : option setup_outcome
}.

Record world : Type := {
  (** the object behind an identity *)
  obj : nat -> component;
  (** [py_eq a b]: the truth value of [a == b] for two distinct objects *)
  py_eq : nat -> nat -> bool
}.

(** Calls that reach outside the manager, in program order. *)
Inductive event : Type :=
| ReadDict (data : conf) (layer : string) (source : nat)
| SetupCall (component : nat).

(** The variables of [setup_components] while the loop runs: the local
    [components] (the worklist) and [done], the attribute
    [self.components], and the calls made so far. *)
Record state : Type := {
  worklist : list pyref;
  self_components : list pyref;
  done : list nat;
  log : list event
}.

(** [component in done] on a list: identity first, then [==]. *)
Definition py_in (w : world) (c : nat) (l : list nat) : bool :=
  existsb (fun d => Nat.eqb c d || py_eq w c d) l.

(** Truth value of the value returned by a setup callback. *)
Definition truthy (r : option (list pyref)) : bool :=
  match r with
  | None | Some [] => false
  | Some (_ :: _) => true
  end.

Definition elements (r : option (list pyref)) : list pyref :=
  match r with
  | None => []
  | Some xs => xs
  end.

(** One evaluation of the [while] statement. *)
Inductive step_result : Type :=
| Exit
| Continue (s : state)
| Abort (e : exn) (s : state).

Definition none_message : string :=
  "None in component list. This likely indicates a bug in a factory function".

Definition step (w : world) (s : state) : step_result :=
  match worklist s with
  | [] => Exit
  | PyNone :: rest =>
      Abort (ComponentConfigError none_message)
            {| worklist := rest; self_components := self_components s;
               done := done s; log := log s |}
  | Obj c :: rest =>
      let o := obj w c in
      (* if isinstance(component, Iterable): both lists are extended *)
      let unpacked := elements (iter_elems o) in
      let wl := rest ++ unpacked in
      let comps := self_components s ++ unpacked in
      if py_in w c (done s) then
        Continue {| worklist := wl; self_components := comps;
                    done := done s; log := log s |}
      else
        let lg :=
          match configuration_defaults o with
          | Some d => log s ++ [ReadDict d "component_configs" c]
          | None => log s
          end in
        match setup o with
        | None =>
            Continue {| worklist := wl; self_components := comps;
                        done := done s; log := lg |}
        | Some SetupRaises =>
            Abort (CallbackError c)
                  {| worklist := wl; self_components := comps;
                     done := done s; log := lg ++ [SetupCall c] |}
        | Some (SetupReturns sub_components) =>
            if truthy sub_components then
              Continue {| worklist := wl ++ elements sub_components;
                          self_components := comps ++ elements sub_components;
                          done := done s ++ [c];
                          log := lg ++ [SetupCall c] |}
            else
              Continue {| worklist := wl; self_components := comps;
                          done := done s ++ [c];
                          log := lg ++ [SetupCall c] |}
        end
  end.

(** How a call of [setup_components] ends.  The loop needs fuel: a
    container that contains itself is unpacked for ever. *)
Inductive outcome : Type :=
| Finished (s : state)
| Raised (e : exn) (s : state)
| OutOfFuel (s : state).

Fixpoint loop (w : world) (fuel : nat) (s : state) : outcome :=
  match fuel with
  | O => OutOfFuel s
  | S fuel' =>
      match step w s with
      | Exit => Finished s
      | Continue s' => loop w fuel' s'
      | Abort e s' => Raised e s'
      end
  end.

(** The state on entry: [done = []], [components = list(self.components)]. *)
Definition start (components : list pyref) : state :=
  {| worklist := components; self_components := components;
     done := []; log := [] |}.

(** [ComponentManager.setup_components]: [done] starts empty and the
    worklist is a copy of [self.components]. *)
Definition setup_components (w : world) (fuel : nat) (components : list pyref)
  : outcome :=
  loop w fuel (start components).

(** [ComponentManager.add_components] *)
Definition add_components (components self_comps : list pyref) : list pyref :=
  components ++ self_comps.

Definition final_state (o : outcome) : state :=
  match o with
  | Finished s | Raised _ s | OutOfFuel s => s
  end.

(** Two calls of [setup_components] on one manager: the second sees the
    [self.components] the first left; the calls of both are collected. *)
Definition setup_twice (w : world) (fuel : nat) (components : list pyref)
  : option (list pyref * list event) :=
  match setup_components w fuel components with
  | Finished s1 =>
      match setup_components w fuel (self_components s1) with
      | Finished s2 => Some (self_components s2, log s1 ++ log s2)
      | _ => None
      end
  | _ => None
  end.

(** Reading the log *)

Definition is_setup_of (c : nat) (e : event) : bool :=
  match e with
  | SetupCall c' => Nat.eqb c c'
  | ReadDict _ _ _ => false
  end.

Definition is_defaults_of (c : nat) (e : event) : bool :=
  match e with
  | ReadDict _ layer c' => Nat.eqb c c' && String.eqb layer "component_configs"
  | SetupCall _ => false
  end.

Definition count_setup (c : nat) (l : list event) : nat :=
  List.length (filter (is_setup_of c) l).

Definition count_defaults (c : nat) (l : list event) : nat :=
  List.length (filter (is_defaults_of c) l).

Fixpoint setup_calls (l : list event) : list nat :=
  match l with
  | [] => []
  | SetupCall c :: l' => c :: setup_calls l'
  | ReadDict _ _ _ :: l' => setup_calls l'
  end.

Definition pyref_eq_dec (a b : pyref) : {a = b} + {a <> b}.
Proof. decide equality. apply Nat.eq_dec. Defined.

Definition occurrences (c : nat) (l : list pyref) : nat :=
  count_occ pyref_eq_dec l (Obj c).

(** Sample objects *)

Definition plain : component :=
  {| iter_elems := None; configuration_defaults := None; setup := None |}.

Definition with_setup (r : option (list pyref)) : component :=
  {| iter_elems := None; configuration_defaults := None;
     setup := Some (SetupReturns r) |}.

Definition identity_eq (a b : nat) : bool := false.

(** Under the default comparison of [object] (nothing else compares equal
    to [c]) membership in [done] is membership by identity. *)
Definition compares_by_identity (w : world) (c : nat) : Prop :=
  forall d, d <> c -> py_eq w c d = false.

(** The invariant behind single initialisation: the setup calls logged so
    far are exactly [done], and [done] has no repetition. *)
Definition calls_match_done (s : state) : Prop :=
  setup_calls (log s) = done s /\ NoDup (done s).

(** A world in which every object is a component with a [setup] that
    returns [None], compared by identity. *)
Definition single_world : world :=
  {| obj := fun _ => with_setup None; py_eq := identity_eq |}.

Definition container_defaults : conf :=
  ConfMap [("group", ConfMap [("size", ConfInt 2)])].

(** Object 0 is an iterable component (it defines [__iter__], yielding
    object 1) that also declares defaults and a [setup]. *)
Definition container_world : world :=
  {| obj := fun i =>
       match i with
       | 0 => {| iter_elems := Some [Obj 1];
                 configuration_defaults := Some container_defaults;
                 setup := Some (SetupReturns None) |}
       | _ => plain
       end;
     py_eq := identity_eq |}.

(** Object 0 is a plain list holding objects 1 and 2. *)
Definition list_world : world :=
  {| obj := fun i =>
       match i with
       | 0 => {| iter_elems := Some [Obj 1; Obj 2];
                 configuration_defaults := None; setup := None |}
       | _ => with_setup None
       end;
     py_eq := identity_eq |}.

(** Two instances of a class whose [__eq__] answers [True] for any two
    instances (equal attributes); each has a [setup]. *)
Definition equal_instances_world : world :=
  {| obj := fun _ => with_setup None; py_eq := fun _ _ => true |}.


(** The calls an entry [c] receives when it is dequeued and is not in
    [done]: its defaults are read if it has the attribute, its [setup] is
    called if it has the attribute. *)
Definition defaults_call (w : world) (c : nat) : list event :=
  match configuration_defaults (obj w c) with
  | Some d => [ReadDict d "component_configs" c]
  | None => []
  end.

Definition setup_call (w : world) (c : nat) : list event :=
  match setup (obj w c) with
  | Some _ => [SetupCall c]
  | None => []
  end.

Definition own_calls (w : world) (c : nat) (done : list nat) : list event :=
  if py_in w c done then [] else defaults_call w c ++ setup_call w c.

(** The state an iteration leaves, if it ran at all. *)
Definition state_after (r : step_result) : option state :=
  match r with
  | Exit => None
  | Continue s | Abort _ s => Some s
  end.

(** Only components that expose [setup] are ever appended to [done]. *)
Definition done_have_setup (w : world) (s : state) : Prop :=
  forall d, In d (done s) -> setup (obj w d) <> None.

(** Object 0 declares defaults and has no [setup]; object 1 has a [setup]
    that returns nothing. *)
Definition clock_defaults : conf :=
  ConfMap [("time", ConfMap [("start", ConfInt 0); ("end", ConfInt 100);
                             ("step_size", ConfInt 1)])].

Definition defaults_only_world : world :=
  {| obj := fun i =>
       match i with
       | 0 => {| iter_elems := None;
                 configuration_defaults := Some clock_defaults;
                 setup := None |}
       | _ => with_setup None
       end;
     py_eq := identity_eq |}.

(** Object 0 has a [setup] that returns objects 2 and 3; every other
    object has a [setup] that returns nothing. *)
Definition discovery_world : world :=
  {| obj := fun i =>
       match i with
       | 0 => with_setup (Some [Obj 2; Obj 3])
       | _ => with_setup None
       end;
     py_eq := identity_eq |}.

(** A world whose objects below [N] are not iterable and whose setup
    callbacks return at most [L] components, all below [N]. *)
Definition bounded_world (w : world) (N L : nat) : Prop :=
  forall c, c < N ->
    iter_elems (obj w c) = None /\
    forall r, setup (obj w c) = Some (SetupReturns r) ->
      List.length (elements r) <= L /\
      forall i, In (Obj i) (elements r) -> i < N.

Definition ids_below (N : nat) (l : list pyref) : Prop :=
  forall i, In (Obj i) l -> i < N.

Definition is_out_of_fuel (o : outcome) : bool :=
  match o with
  | OutOfFuel _ => true
  | _ => false
  end.

(** Objects 0 and 1 return each other from their [setup]. *)
Definition cycle_world : world :=
  {| obj := fun i =>
       match i with
       | 0 => with_setup (Some [Obj 1])
       | _ => with_setup (Some [Obj 0])
       end;
     py_eq := identity_eq |}.

(** Object 0 declares defaults and has a [setup]. *)
Definition clock_world : world :=
  {| obj := fun i =>
       match i with
       | 0 => {| iter_elems := None;
                 configuration_defaults := Some clock_defaults;
                 setup := Some (SetupReturns None) |}
       | _ => with_setup None
       end;
     py_eq := identity_eq |}.

(** Object 1 has a [setup] that raises; the others return nothing. *)
Definition failing_world : world :=
  {| obj := fun i =>
       match i with
       | 1 => {| iter_elems := None;
                 configuration_defaults := Some clock_defaults;
                 setup := Some SetupRaises |}
       | _ => with_setup None
       end;
     py_eq := identity_eq |}.

(** Instances of a class whose [__eq__] answers [True] for any two
    instances; the setup of object 0 returns objects 1 and 2. *)
Definition equal_discovery_world : world :=
  {| obj := fun i =>
       match i with
       | 0 => with_setup (Some [Obj 1; Obj 2])
       | _ => with_setup None
       end;
     py_eq := fun _ _ => true |}.

(** Object 0 has a [setup]; object 1 declares defaults and has none; the
    two compare equal. *)
Definition equal_defaults_world : world :=
  {| obj := fun i =>
       match i with
       | 0 => with_setup None
       | _ => {| iter_elems := None;
                 configuration_defaults := Some clock_defaults;
                 setup := None |}
       end;
     py_eq := fun _ _ => true |}.

(** The state an iteration leaves when it skips the entry [c] at the
    front of the worklist. *)
Definition skipped (w : world) (s : state) (c : nat) (rest : list pyref)
  : state :=
  {| worklist := rest ++ elements (iter_elems (obj w c));
     self_components := self_components s ++ elements (iter_elems (obj w c));
     done := done s;
     log := log s |}.

End Lifecycle.

(** ** Results of fallible code *)

Definition result (A : Type) : Type := (exn + A)%type.

(** Run [f] on every element in order and concatenate what it yields; the
    first exception ends the loop. *)
Definition collect {A B : Type} (f : A -> result (list B))
  : list A -> result (list B) :=
  fix go (xs : list A) : result (list B) :=
    match xs with
    | [] => inr []
    | x :: xs' =>
        match f x with
        | inl e => inl e
        | inr ys =>
            match go xs' with
            | inl e => inl e
            | inr zs => inr (ys ++ zs)
            end
        end
    end.

(** [sep.join(parts)] *)
Fixpoint join (sep : string) (parts : list string) : string :=
  match parts with
  | [] => ""
  | [x] => x
  | x :: rest => (x ++ sep ++ join sep rest)%string
  end.

(** ** The Descriptor Extractor *)

Module Extractor.

(** What a configuration file holds: scalars, sequences and mappings.  A
    mapping is kept as its items in iteration order; its keys are strings
    (the annotation is [Mapping[str, Union[str, Mapping]]]). *)
#[warnings="-register-all"]
Inductive node : Type :=
| NStr (s : string)
| NInt (z : Z)
| NNone
| NList (items : list node)
| NDict (items : list (string * node)).

(** A [str] is kept as the bytes of its UTF-8 encoding.  A byte of the
    form [10xxxxxx] continues the character begun before it. *)
Definition is_continuation (c : ascii) : bool :=
  Nat.leb 128 (nat_of_ascii c) && Nat.ltb (nat_of_ascii c) 192.

(** The characters of a string, as iterating a [str] yields them: one
    string for each code point. *)
Fixpoint chars (s : string) : list string :=
  match s with
  | EmptyString => []
  | String c rest =>
      let continued :=
        match rest with
        | String c' _ => is_continuation c'
        | EmptyString => false
        end in
      match chars rest with
      | x :: xs =>
          if continued then String c x :: xs
          else String c EmptyString :: x :: xs
      | [] => [String c EmptyString]
      end
  end.

(** The inner function of [_extract_component_list].  [for child in
    level] iterates a list by its elements, a mapping by its keys and a
    string by its characters; anything else is not iterable.  A child
    that is a [dict] is descended into, one item after the other; any
    other child is joined to the prefix, which raises unless it is a
    string. *)
Fixpoint _process_level (level : node) (prefix : list string)
  : result (list string) :=
  match level with
  | NList items =>
      collect (fun child =>
                 match child with
                 | NDict sub_items =>
                     collect (fun item : string * node =>
                                let '(path_suffix, sub_level) := item in
                                _process_level sub_level (prefix ++ [path_suffix]))
                             sub_items
                 | NStr s => inr [join "." (prefix ++ [s])]
                 | NInt _ | NNone | NList _ => inl TypeError
                 end)
              items
  | NDict items =>
      inr (map (fun item => join "." (prefix ++ [fst item])) items)
  | NStr s =>
      inr (map (fun ch => join "." (prefix ++ [ch])) (chars s))
  | NInt _ | NNone => inl TypeError
  end.

Definition _extract_component_list (component_config : node)
  : result (list string) :=
  _process_level component_config [].

(** A leaf that the join rejects, at any depth of the grouping. *)
Inductive bad_leaf : node -> Prop :=
| bad_int (z : Z) : bad_leaf (NInt z)
| bad_none : bad_leaf NNone
| bad_list (items : list node) : bad_leaf (NList items).

(** The levels on which the traversal meets something it cannot handle: a
    level that is not iterable, a child the join rejects, or a mapping
    one of whose sub-levels is such a level. *)
Inductive raises : node -> Prop :=
| raises_int (z : Z) : raises (NInt z)
| raises_none : raises NNone
| raises_leaf (items : list node) (child : node) :
    In child items -> bad_leaf child -> raises (NList items)
| raises_below (items : list node) (sub_items : list (string * node))
    (path_suffix : string) (sub_level : node) :
    In (NDict sub_items) items -> In (path_suffix, sub_level) sub_items ->
    raises sub_level -> raises (NList items).

(** What the loop does with the items of one mapping. *)
Definition descend (prefix : list string) (sub_items : list (string * node))
  : result (list string) :=
  collect (fun item : string * node =>
             let '(path_suffix, sub_level) := item in
             _process_level sub_level (prefix ++ [path_suffix]))
          sub_items.

(** A group holding a number where a name is expected. *)
Definition bad_leaf_config : node :=
  NList [NStr "e.f"; NDict [("a", NList [NStr "b"; NInt 5])]].

(** Put a chain of prefix keys in front of every extracted name. *)
Definition prefixed (p : list string) (r : result (list string))
  : result (list string) :=
  match r with
  | inl e => inl e
  | inr names => inr (map (fun n => join "." (p ++ [n])) names)
  end.

(** One loop after another: the first exception wins. *)
Definition then_extend (r1 r2 : result (list string)) : result (list string) :=
  match r1 with
  | inl e => inl e
  | inr xs =>
      match r2 with
      | inl e => inl e
      | inr ys => inr (xs ++ ys)
      end
  end.

End Extractor.

(** ** Descriptor parsing and component loading *)

Module Loader.

(** *** Syntax trees, as [ast.parse] returns them

    Only the node classes and fields the module reads are kept. *)
#[warnings="-register-all"]
Inductive expr : Type :=
| Num (n : Z)
| Str (s : string)
| NameConstant (value : option bool)    (* [None], [True], [False] *)
| Name (id : string)
| Attribute (value : expr) (attr : string)
| Call (func : expr) (args : list expr)
| Tuple (elts : list expr)
| List (elts : list expr)
| Subscript (value : expr) (index : expr).

Inductive stmt : Type :=
| Expr (value : expr)
| Assign (target : expr) (value : expr)
| Pass.

(** *** Run-time values *)
#[warnings="-register-all"]
Inductive value : Type :=
| VInt (z : Z)
| VStr (s : string)
| VBool (b : bool)
| VNone
| VTuple (items : list value)
| VList (items : list value)
| VMapping (data : conf)
| VObject (cls : string) (id : nat).

(** [val.__class__], by name *)
Definition class_of (v : value) : string :=
  match v with
  | VInt _ => "int"
  | VStr _ => "str"
  | VBool _ => "bool"
  | VNone => "NoneType"
  | VTuple _ => "tuple"
  | VList _ => "list"
  | VMapping _ => "dict"
  | VObject cls _ => cls
  end.

(** [ast.literal_eval] on these nodes; [None] stands for its ValueError.
    On the node classes kept here it raises nothing else. *)
Fixpoint literal_eval (e : expr) : option value :=
  let all :=
    fix all (es : list expr) : option (list value) :=
      match es with
      | [] => Some []
      | x :: es' =>
          match literal_eval x, all es' with
          | Some v, Some vs => Some (v :: vs)
          | _, _ => None
          end
      end in
  match e with
  | Num n => Some (VInt n)
  | Str s => Some (VStr s)
  | NameConstant None => Some VNone
  | NameConstant (Some b) => Some (VBool b)
  | Tuple elts => option_map VTuple (all elts)
  | List elts => option_map VList (all elts)
  | Name _ | Attribute _ _ | Call _ _ | Subscript _ _ => None
  end.

(** [_is_literal] *)
Definition _is_literal (expression : expr) : bool :=
  match literal_eval expression with
  | Some _ => true
  | None => false
  end.

(** *** The constructors mapping of the dataset manager

    Its keys are names (looked up by [_parse_component]) and classes
    (looked up by [_prep_components]); its values are callables, modelled
    as functions whose calls are logged.  A constructor returns a value
    and does nothing else: one that raises, or that changes an object, is
    outside this model. *)
Inductive key : Type :=
| KName (name : string)
| KClass (cls : string).

Definition registry : Type := key -> option (value -> value).

(** *** Effects *)

Inductive event : Type :=
| ConstructorCall (k : key) (arg : value)
| SetAttr (component : nat) (attr : string) (v : value)
| ReadDict (data : value) (layer : string) (source : nat)
| Invoke (callable : nat) (args : list value).

(** The mutable surroundings: the non-routine members of every imported
    object ([inspect.getmembers] order) and the calls made so far. *)
Record effects : Type := {
  members : nat -> list (string * value);
  trace : list event
}.

Definition M (A : Type) : Type := effects -> result A * effects.

Definition ret {A : Type} (a : A) : M A := fun st => (inr a, st).

Definition raise {A : Type} (e : exn) : M A := fun st => (inl e, st).

Definition bind {A B : Type} (m : M A) (k : A -> M B) : M B :=
  fun st =>
    match m st with
    | (inl e, st') => (inl e, st')
    | (inr a, st') => k a st'
    end.

Definition lift {A : Type} (r : result A) : M A := fun st => (r, st).

Definition emit (e : event) : M unit :=
  fun st => (inr tt, {| members := members st; trace := trace st ++ [e] |}).

Definition getmembers (component : nat) : M (list (string * value)) :=
  fun st => (inr (members st component), st).

Fixpoint update (attr : string) (v : value) (l : list (string * value))
  : list (string * value) :=
  match l with
  | [] => [(attr, v)]
  | (a, x) :: l' =>
      if String.eqb a attr then (a, v) :: l' else (a, x) :: update attr v l'
  end.

Definition setattr (component : nat) (attr : string) (v : value) : M unit :=
  fun st =>
    (inr tt,
     {| members := fun c => if Nat.eqb c component
                            then update attr v (members st c)
                            else members st c;
        trace := trace st ++ [SetAttr component attr v] |}).

Fixpoint lookup (attr : string) (l : list (string * value)) : option value :=
  match l with
  | [] => None
  | (a, x) :: l' => if String.eqb a attr then Some x else lookup attr l'
  end.

Notation "x <- m ;; k" := (bind m (fun x => k))
  (at level 61, m at next level, right associativity).
Notation "m ;;; k" := (bind m (fun _ => k))
  (at level 61, right associativity).

(** *** What the interpreter provides *)
Record host : Type := {
  (** [ast.parse(definition).body] *)
  ast_parse : string -> result (list stmt);
  (** [import_module(module_path)] *)
  import_module : string -> result nat;
  (** [getattr(module, class_name)] *)
  module_getattr : nat -> string -> result nat;
  (** [isinstance(component, type)] for an object of a component list *)
  is_type : nat -> bool;
  (** the object that calling [component] with [args] returns *)
  instance_of : nat -> list value -> result Lifecycle.pyref
}.

(** *** The parser *)

(** [_component_ast_to_path]: the loop over [ast.Attribute] nodes *)
Fixpoint attribute_path (current : expr) (path : list string)
  : result (list string) :=
  match current with
  | Attribute value attr => attribute_path value (attr :: path)
  | Name id => inr (id :: path)
  | _ => inl AttributeError
  end.

Definition _component_ast_to_path (component : expr) : result string :=
  match component with
  | Name id => inr id
  | _ =>
      match attribute_path component [] with
      | inl e => inl e
      | inr path => inr (join "." path)
      end
  end.

(** [_extract_component_call] *)
Definition _extract_component_call (definition : list stmt)
  : result (expr * list expr) :=
  match definition with
  | [] => inl IndexError
  | definition_expression :: _ =>
      match definition_expression with
      | Expr component_call | Assign _ component_call =>
          match component_call with
          | Call func args => inr (func, args)
          | _ => inl AttributeError
          end
      | Pass => inl AttributeError
      end
  end.

Definition invalid_syntax (definition : string) : exn :=
  ParsingError ("Invalid syntax: " ++ definition).

(** The body of [for arg in args]: what is appended to
    [transformed_args].  An argument that is neither a literal nor a call
    meets no branch: nothing is appended and nothing is raised. *)
Definition transform_arg (definition : string) (constructors : registry)
    (arg : expr) : M (list value) :=
  match literal_eval arg with
  | Some v => ret [v]
  | None =>
      match arg with
      | Call func constructor_args =>
          match func with
          | Name constructor =>
              match constructors (KName constructor), constructor_args with
              | Some f, [Str s] =>
                  emit (ConstructorCall (KName constructor) (VStr s)) ;;;
                  ret [f (VStr s)]
              | _, _ => raise (invalid_syntax definition)
              end
          | _ => raise AttributeError
          end
      | _ => ret []
      end
  end.

Fixpoint transform_args (definition : string) (constructors : registry)
    (args : list expr) (transformed_args : list value) : M (list value) :=
  match args with
  | [] => ret transformed_args
  | arg :: args' =>
      new <- transform_arg definition constructors arg ;;
      transform_args definition constructors args' (transformed_args ++ new)
  end.

(** [_parse_component] *)
Definition _parse_component (h : host) (definition : string)
    (constructors : registry) : M (string * list value) :=
  body <- lift (ast_parse h definition) ;;
  call <- lift (_extract_component_call body) ;;
  component <- lift (_component_ast_to_path (fst call)) ;;
  transformed_args <- transform_args definition constructors (snd call) [] ;;
  ret (component, transformed_args).

(** *** The loader *)

(** ['(' in component] *)
Fixpoint has_paren (s : string) : bool :=
  match s with
  | EmptyString => false
  | String c rest => Ascii.eqb c "("%char || has_paren rest
  end.

Fixpoint has_dot (s : string) : bool :=
  match s with
  | EmptyString => false
  | String c rest => Ascii.eqb c "."%char || has_dot rest
  end.

(** [path.rpartition('.')], without the separator: what precedes the last
    dot and what follows it; no dot leaves the first part empty. *)
Fixpoint rpartition (path : string) : string * string :=
  match path with
  | EmptyString => (EmptyString, EmptyString)
  | String c rest =>
      if has_dot rest then
        let '(module_path, class_name) := rpartition rest in
        (String c module_path, class_name)
      else if Ascii.eqb c "."%char then (EmptyString, rest)
      else (EmptyString, String c rest)
  end.

(** [_import_by_path] *)
Definition _import_by_path (h : host) (path : string) : result nat :=
  let '(module_path, class_name) := rpartition path in
  match import_module h module_path with
  | inl e => inl e
  | inr m => module_getattr h m class_name
  end.

(** An entry of the list handed to [_prep_components]. *)
Inductive item : Type :=
| IStr (description : string)
| IObj (o : nat).

(** An entry of the list it returns: the tuple [(component,)], the tuple
    [(component, args)], or an object passed through untouched. *)
Inductive prepared : Type :=
| Bare (component : nat)
| WithArgs (component : nat) (args : list value)
| Raw (o : nat).

(** The loop over [inspect.getmembers(component, ...)]: the member list is
    taken before the loop starts. *)
Fixpoint rebind (constructors : registry) (component : nat)
    (ms : list (string * value)) : M unit :=
  match ms with
  | [] => ret tt
  | (attr, val) :: ms' =>
      match constructors (KClass (class_of val)) with
      | Some f =>
          emit (ConstructorCall (KClass (class_of val)) val) ;;;
          setattr component attr (f val) ;;;
          rebind constructors component ms'
      | None => rebind constructors component ms'
      end
  end.

(** Establish the initial configuration: [configuration_defaults] is a
    data attribute when the class declares it. *)
Definition read_defaults (component : nat) : M unit :=
  ms <- getmembers component ;;
  match lookup "configuration_defaults" ms with
  | Some d => emit (ReadDict d "component_configs" component)
  | None => ret tt
  end.

(** The body of the loop of [_prep_components]. *)
Definition prep_component (h : host) (constructors : registry)
    (component : item) : M prepared :=
  match component with
  | IStr description =>
      parsed <- (if has_paren description
                 then p <- _parse_component h description constructors ;;
                      ret (fst p, Some (snd p))
                 else ret (description, None)) ;;
      c <- lift (_import_by_path h (fst parsed)) ;;
      ms <- getmembers c ;;
      rebind constructors c ms ;;;
      read_defaults c ;;;
      ret (match snd parsed with
           | Some args => WithArgs c args
           | None => Bare c
           end)
  | IObj o => ret (if is_type h o then WithArgs o [] else Raw o)
  end.

(** [_prep_components] *)
Fixpoint prep_loop (h : host) (constructors : registry)
    (component_list : list item) (components : list prepared)
  : M (list prepared) :=
  match component_list with
  | [] => ret components
  | component :: rest =>
      p <- prep_component h constructors component ;;
      prep_loop h constructors rest (components ++ [p])
  end.

Definition _prep_components (h : host) (component_list : list item)
    (constructors : registry) : M (list prepared) :=
  prep_loop h constructors component_list [].

(** The loop of [load_components_from_config]: a tuple of length one is
    stored as it is, any other is called.  The extractor yields strings
    only, so no [Raw] entry reaches the loop. *)
Fixpoint instantiate (h : host) (component_list : list prepared)
    (new_components : list Lifecycle.pyref) : M (list Lifecycle.pyref) :=
  match component_list with
  | [] => ret new_components
  | Bare c :: rest => instantiate h rest (new_components ++ [Lifecycle.Obj c])
  | WithArgs c args :: rest =>
      emit (Invoke c args) ;;;
      o <- lift (instance_of h c args) ;;
      instantiate h rest (new_components ++ [o])
  | Raw _ :: rest => raise TypeError
  end.

(** [ComponentManager.load_components_from_config]; the result is the new
    [self.components]. *)
Definition load_components_from_config (h : host) (constructors : registry)
    (component_config : Extractor.node) (self_components : list Lifecycle.pyref)
  : M (list Lifecycle.pyref) :=
  component_list <- lift (Extractor._extract_component_list component_config) ;;
  component_list <- _prep_components h (map IStr component_list) constructors ;;
  new_components <- instantiate h component_list [] ;;
  ret (self_components ++ new_components).

(** *** A sample interpreter *)

Definition thing : expr := Attribute (Name "pkg") "Thing".

(** Module [pkg] is object 100; it holds the classes [Thing] (object 1,
    declaring defaults) and [Plain] (object 2). *)
Definition sample_host : host :=
  {| ast_parse := fun definition =>
       if String.eqb definition "pkg.Thing(foo)" then
         inr [Expr (Call thing [Name "foo"])]
       else if String.eqb definition "pkg.Thing(1, foo, 2)" then
         inr [Expr (Call thing [Num 1; Name "foo"; Num 2])]
       else if String.eqb definition "pkg.Thing(data('path/to/file'))" then
         inr [Expr (Call thing [Call (Name "data") [Str "path/to/file"]])]
       else if String.eqb definition "pkg.Thing(1, 'x', True)" then
         inr [Expr (Call thing [Num 1; Str "x"; NameConstant (Some true)])]
       else if String.eqb definition "pkg.Thing(data(1))" then
         inr [Expr (Call thing [Call (Name "data") [Num 1]])]
       else inl SyntaxError;
     import_module := fun module_path =>
       if String.eqb module_path "pkg" then inr 100 else inl (ImportError module_path);
     module_getattr := fun m class_name =>
       if Nat.eqb m 100 && String.eqb class_name "Thing" then inr 1
       else if Nat.eqb m 100 && String.eqb class_name "Plain" then inr 2
       else inl AttributeError;
     is_type := fun o => Nat.eqb o 1 || Nat.eqb o 2;
     instance_of := fun c args => inr (Lifecycle.Obj (10 + c)) |}.

Definition no_constructors : registry := fun _ => None.

(** The registry [{"data": f}] with [f("path/to/file") == 42]. *)
Definition data_constructors : registry :=
  fun k =>
    match k with
    | KName name => if String.eqb name "data" then Some (fun _ => VInt 42) else None
    | KClass _ => None
    end.

Definition thing_defaults : value :=
  VMapping (ConfMap [("thing", ConfMap [("size", ConfInt 3)])]).

Definition sample_effects : effects :=
  {| members := fun c =>
       match c with
       | 1 => [("configuration_defaults", thing_defaults)]
       | _ => []
       end;
     trace := [] |}.

(** *** Reading the trace *)

Definition is_invoke (e : event) : bool :=
  match e with
  | Invoke _ _ => true
  | _ => false
  end.

(** [hasattr(component, attr)] for a data attribute *)
Definition has_attr (st : effects) (component : nat) (attr : string) : Prop :=
  lookup attr (members st component) <> None.

(** A stretch of execution that calls no component: it only appends
    events other than [Invoke], and removes no attribute. *)
Definition quiet_step (st st' : effects) (evs : list event) : Prop :=
  trace st' = trace st ++ evs /\
  (forall e, In e evs -> is_invoke e = false) /\
  (forall c attr, has_attr st c attr -> has_attr st' c attr).

Definition quiet {A : Type} (m : M A) : Prop :=
  forall st r st', m st = (r, st') -> exists evs, quiet_step st st' evs.

(** The component a prepared entry refers to. *)
Definition component_of (p : prepared) : nat :=
  match p with
  | Bare c | WithArgs c _ | Raw c => c
  end.

(** The state after processing one argument through a constructor. *)
Definition after_constructor_call (st : effects) (constructor : string)
    (s : string) : effects :=
  {| members := members st;
     trace := trace st ++ [ConstructorCall (KName constructor) (VStr s)] |}.

(** The grouping [[{"pkg": ["Thing(1, 'x', True)"]}]]. *)
Definition sample_config : Extractor.node :=
  Extractor.NList
    [Extractor.NDict [("pkg", Extractor.NList [Extractor.NStr "Thing(1, 'x', True)"])]].

(** The tree the parser builds for the dotted name
    [first.rest1.rest2...]: attribute accesses nested to the left. *)
Definition dotted (first : string) (rest : list string) : expr :=
  fold_left (fun e attr => Attribute e attr) rest (Name first).

(** An event of the argument loop: a constructor registered under a name,
    called on a string. *)
Definition named_constructor_call (constructors : registry) (e : event) : Prop :=
  exists name s f,
    e = ConstructorCall (KName name) (VStr s) /\
    constructors (KName name) = Some f.

(** The calls the second loop makes for a prepared list. *)
Definition invokes (ps : list prepared) : list event :=
  flat_map (fun p => match p with
                     | WithArgs c args => [Invoke c args]
                     | Bare _ | Raw _ => []
                     end) ps.

(** What the second loop stores for a prepared entry. *)
Definition stored (h : host) (p : prepared) (o : Lifecycle.pyref) : Prop :=
  match p with
  | Bare c => o = Lifecycle.Obj c
  | WithArgs c args => instance_of h c args = inr o
  | Raw _ => False
  end.

(** What a description is prepared into. *)
Definition prepared_from (h : host) (description : string) (p : prepared)
  : Prop :=
  (has_paren description = false /\
   exists c, _import_by_path h description = inr c /\ p = Bare c) \/
  (has_paren description = true /\ exists c args, p = WithArgs c args).

(** What the interpreter must provide for a description to be prepared:
    a call form parses into a path and arguments, whatever the calls
    made so far, and the path (the description itself when it holds no
    parenthesis) imports. *)
Definition resolves (h : host) (constructors : registry)
    (description : string) (p : prepared) : Prop :=
  if has_paren description then
    exists path args c,
      (forall st, fst (_parse_component h description constructors st)
                  = inr (path, args)) /\
      _import_by_path h path = inr c /\ p = WithArgs c args
  else
    exists c, _import_by_path h description = inr c /\ p = Bare c.

(** The surroundings once the members of [c] have been rebound for a
    description that follows the descriptions [before]. *)
Definition rebound (h : host) (constructors : registry)
    (before : list string) (c : nat) (st : effects) : effects :=
  let st_i := snd (_prep_components h (map IStr before) constructors st) in
  snd (rebind constructors c (members st_i c) st_i).

(** The grouping [[{"pkg": ["Plain", "Thing(1, 'x', True)"]}]]. *)
Definition mixed_config : Extractor.node :=
  Extractor.NList
    [Extractor.NDict [("pkg", Extractor.NList [Extractor.NStr "Plain";
                                               Extractor.NStr "Thing(1, 'x', True)"])]].

(** Relations between the surroundings before and after a computation. *)
Definition keeps (R : effects -> effects -> Prop) {A : Type} (m : M A) : Prop :=
  forall st r st', m st = (r, st') -> R st st'.

Definition same_keys (st st' : effects) : Prop :=
  forall c, map fst (members st' c) = map fst (members st c).

Definition same_members (st st' : effects) : Prop :=
  forall c, members st' c = members st c.

(** A registry under which [Thing]'s integer attribute is rebound. *)
Definition int_constructors : registry :=
  fun k =>
    match k with
    | KClass cls =>
        if String.eqb cls "int" then Some (fun v => VObject "Table" 7) else None
    | KName _ => None
    end.

Definition table_effects : effects :=
  {| members := fun c =>
       match c with
       | 1 => [("configuration_defaults", thing_defaults); ("table", VInt 5)]
       | _ => []
       end;
     trace := [] |}.

Definition plain_config : Extractor.node :=
  Extractor.NList
    [Extractor.NDict [("pkg", Extractor.NList [Extractor.NStr "Thing";
                                               Extractor.NStr "Plain"])]].

(** A stretch of execution that only appends to the trace. *)
Definition only_logs (st st' : effects) : Prop :=
  members st' = members st /\ exists evs, trace st' = trace st ++ evs.

End Loader.

(** ** Creating the manager *)

Module Manager.

Import Extractor.

(** The truth value of a configuration value. *)
Definition truthy (n : node) : bool :=
  match n with
  | NStr EmptyString | NInt 0%Z | NNone | NList [] | NDict [] => false
  | _ => true
  end.

(** [key in mapping] and [mapping[key]] on the items of a mapping. *)
Fixpoint lookup_key (key : string) (items : list (string * node))
  : option node :=
  match items with
  | [] => None
  | (k, v) :: items' => if String.eqb k key then Some v else lookup_key key items'
  end.

(** [n.get(key, default)]: only a mapping has the method. *)
Definition get (n : node) (key : string) (default : node) : result node :=
  match n with
  | NDict items =>
      inr (match lookup_key key items with
           | Some v => v
           | None => default
           end)
  | NStr _ | NInt _ | NNone | NList _ => inl AttributeError
  end.

(** [component_config.get('configuration', {}).get('vivarium', {}).get(key)] *)
Definition setting (component_config : node) (key : string) : result node :=
  match get component_config "configuration" (NDict []) with
  | inl e => inl e
  | inr configuration =>
      match get configuration "vivarium" (NDict []) with
      | inl e => inl e
      | inr vivarium => get vivarium key NNone
      end
  end.

(** [_import_by_path] on a configuration value: only a string has
    [rpartition]. *)
Definition import_class (h : Loader.host) (name : node) : result nat :=
  match name with
  | NStr path => Loader._import_by_path h path
  | NInt _ | NNone | NList _ | NDict _ => inl AttributeError
  end.

(** The class chosen for the manager. *)
Inductive manager_class : Type :=
| ComponentManager
| CustomManager (cls : nat).

(** The dataset manager handed to it: the one supplied by the caller, or
    a fresh instance of the placeholder class or of an imported class. *)
Inductive dataset_manager : Type :=
| Supplied (o : nat)
| DummyDatasetManager
| InstanceOf (cls : nat).

(** What [load_component_manager] has done when it returns: the call
    [component_manager_class(components, dataset_manager)] it ends with,
    and the dictionary it wrote to the [model_override] layer, if any. *)
Record loaded : Type := {
  manager : manager_class;
  component_config : node;
  dataset : dataset_manager;
  model_override : option node
}.

Definition choose_manager (h : Loader.host) (cfg : node) : result manager_class :=
  match setting cfg "component_manager" with
  | inl e => inl e
  | inr name =>
      if truthy name then
        match import_class h name with
        | inl e => inl e
        | inr cls => inr (CustomManager cls)
        end
      else inr ComponentManager
  end.

Definition choose_dataset_manager (h : Loader.host) (cfg : node)
    (supplied : option nat) : result dataset_manager :=
  match supplied with
  | Some o => inr (Supplied o)
  | None =>
      match setting cfg "dataset_manager" with
      | inl e => inl e
      | inr name =>
          if truthy name then
            match import_class h name with
            | inl e => inl e
            | inr cls => inr (InstanceOf cls)
            end
          else inr DummyDatasetManager
      end
  end.

(** [load_component_manager] *)
Definition load_component_manager (h : Loader.host) (cfg : node)
    (supplied : option nat) : result loaded :=
  match choose_manager h cfg with
  | inl e => inl e
  | inr component_manager_class =>
      match choose_dataset_manager h cfg supplied with
      | inl e => inl e
      | inr dm =>
          let written :=
            match cfg with
            | NDict items => lookup_key "configuration" items
            | _ => None
            end in
          match get cfg "components" (NDict []) with
          | inl e => inl e
          | inr components =>
              inr {| manager := component_manager_class;
                     component_config := components;
                     dataset := dm;
                     model_override := written |}
          end
      end
  end.

(** A model specification with a [configuration] section naming a custom
    dataset manager, and one whose section was left empty. *)
Definition custom_dataset_config : node :=
  NDict [("components", NList [NStr "pkg.Thing"]);
         ("configuration",
          NDict [("vivarium", NDict [("dataset_manager", NStr "pkg.Plain")])])].

Definition empty_section_config : node :=
  NDict [("configuration", NNone)].

End Manager.

(** * Properties of the setup pass *)

Import Lifecycle.

Ltac break_step H :=
  unfold step in H;
  repeat match type of H with
  | context [match ?x with _ => _ end] =>
      let E := fresh "E" in destruct x eqn:E; cbn [worklist self_components done log] in H
  | context [if ?x then _ else _] =>
      let E := fresh "E" in destruct x eqn:E; cbn [worklist self_components done log] in H
  end;
  try discriminate H.

Lemma setup_calls_app (l1 l2 : list event) :
  setup_calls (l1 ++ l2) = setup_calls l1 ++ setup_calls l2.
Proof.
  induction l1 as [|[d layer src|c] l1 IH]; cbn; [reflexivity|assumption|].
  now rewrite IH.
Qed.

Lemma count_setup_calls (c : nat) (l : list event) :
  count_setup c l = count_occ Nat.eq_dec (setup_calls l) c.
Proof.
  unfold count_setup.
  induction l as [|[d layer src|c'] l IH]; cbn; [reflexivity|assumption|].
  destruct (Nat.eq_dec c' c) as [->|Hne].
  - rewrite Nat.eqb_refl. cbn. now rewrite IH.
  - destruct (Nat.eqb_spec c c'); [congruence|assumption].
Qed.

Lemma py_in_In (w : world) (c : nat) (l : list nat) :
  In c l -> py_in w c l = true.
Proof.
  intros H. unfold py_in. apply existsb_exists. exists c. split; [assumption|].
  now rewrite Nat.eqb_refl.
Qed.

Lemma py_in_app (w : world) (c : nat) (l1 l2 : list nat) :
  py_in w c (l1 ++ l2) = py_in w c l1 || py_in w c l2.
Proof. unfold py_in. apply existsb_app. Qed.

Lemma py_in_identity (w : world) (c : nat) (l : list nat) :
  compares_by_identity w c -> py_in w c l = true -> In c l.
Proof.
  intros Hid H. unfold py_in in H. apply existsb_exists in H.
  destruct H as [d [Hd Heq]].
  destruct (Nat.eq_dec d c) as [->|Hne]; [assumption|].
  rewrite (Hid d Hne), orb_false_r in Heq.
  apply Nat.eqb_eq in Heq. now subst.
Qed.

Lemma NoDup_snoc (c : nat) (l : list nat) :
  NoDup l -> ~ In c l -> NoDup (l ++ [c]).
Proof.
  intros Hnd Hin. apply NoDup_app; [assumption|constructor; [intros []|constructor]|].
  intros x Hx [->|[]]. contradiction.
Qed.

Lemma not_py_in_not_In (w : world) (c : nat) (l : list nat) :
  py_in w c l = false -> ~ In c l.
Proof.
  intros H Hin. rewrite (py_in_In w c l Hin) in H. discriminate.
Qed.

Lemma step_continue_inv (w : world) (s s' : state) :
  calls_match_done s -> step w s = Continue s' -> calls_match_done s'.
Proof.
  intros [Hlog Hnd] H. unfold calls_match_done.
  break_step H; inversion H; subst; clear H; cbn [log done];
    repeat rewrite setup_calls_app; cbn [setup_calls]; rewrite ?app_nil_r;
    try (split; assumption);
    (split; [now rewrite Hlog | apply NoDup_snoc; eauto using not_py_in_not_In]).
Qed.

Lemma step_abort_inv (w : world) (s s' : state) (e : exn) :
  calls_match_done s -> step w s = Abort e s' -> NoDup (setup_calls (log s')).
Proof.
  intros [Hlog Hnd] H.
  break_step H; inversion H; subst; clear H; cbn [log done];
    repeat rewrite setup_calls_app; cbn [setup_calls]; rewrite ?app_nil_r;
    rewrite Hlog; try assumption;
    apply NoDup_snoc; eauto using not_py_in_not_In.
Qed.

Lemma loop_calls_nodup (w : world) (fuel : nat) :
  forall s, calls_match_done s ->
            NoDup (setup_calls (log (final_state (loop w fuel s)))).
Proof.
  induction fuel as [|fuel IH]; intros s Hs; cbn [loop].
  - cbn. destruct Hs as [-> Hnd]. assumption.
  - destruct (step w s) as [|s'|e s'] eqn:Hstep.
    + cbn. destruct Hs as [-> Hnd]. assumption.
    + apply IH. eapply step_continue_inv; eassumption.
    + cbn. eapply step_abort_inv; eassumption.
Qed.

Lemma loop_finished_inv (w : world) (fuel : nat) :
  forall s s', calls_match_done s -> loop w fuel s = Finished s' ->
               calls_match_done s'.
Proof.
  induction fuel as [|fuel IH]; intros s s' Hs H; cbn [loop] in H; [discriminate|].
  destruct (step w s) as [|s1|e s1] eqn:Hstep; try discriminate.
  - now inversion H; subst.
  - eapply IH; [|eassumption]. eapply step_continue_inv; eassumption.
Qed.

Lemma initial_calls_match_done (components : list pyref) :
  calls_match_done (start components).
Proof. split; [reflexivity|constructor]. Qed.

Lemma count_setup_le_1 (c : nat) (l : list event) :
  NoDup (setup_calls l) -> count_setup c l <= 1.
Proof.
  intros H. rewrite count_setup_calls.
  now apply (proj1 (NoDup_count_occ Nat.eq_dec (setup_calls l))).
Qed.

Lemma count_setup_app (c : nat) (l1 l2 : list event) :
  count_setup c (l1 ++ l2) = count_setup c l1 + count_setup c l2.
Proof. unfold count_setup. now rewrite filter_app, length_app. Qed.

(** What one iteration that continues does to the four variables. *)
Lemma step_continue_shape (w : world) (s s' : state) :
  step w s = Continue s' ->
  exists c rest added,
    worklist s = Obj c :: rest /\
    worklist s' = rest ++ added /\
    self_components s' = self_components s ++ added /\
    ((done s' = done s /\ log s' = log s /\ py_in w c (done s) = true) \/
     (done s' = done s /\ py_in w c (done s) = false /\ setup (obj w c) = None /\
      log s' = log s ++ match configuration_defaults (obj w c) with
                        | Some d => [ReadDict d "component_configs" c]
                        | None => []
                        end) \/
     (done s' = done s ++ [c] /\ py_in w c (done s) = false /\
      setup (obj w c) <> None /\
      log s' = log s ++ match configuration_defaults (obj w c) with
                        | Some d => [ReadDict d "component_configs" c]
                        | None => []
                        end ++ [SetupCall c])).
Proof.
  intros H.
  break_step H; inversion H; subst; clear H; cbn [worklist self_components done log];
    match goal with
    | E : worklist _ = Obj ?c :: ?rest |- _ => exists c, rest
    end;
    repeat match goal with
    | E : configuration_defaults _ = _ |- _ => rewrite E; clear E
    | E : setup _ = _ |- _ => rewrite E; clear E
    end;
    rewrite <- ?app_assoc;
    eexists; (split; [reflexivity|split; [reflexivity|split; [reflexivity|]]]);
    cbn [app]; rewrite ?app_nil_r;
    first [ left; repeat split; (reflexivity || assumption)
          | right; left; repeat split; (reflexivity || assumption)
          | right; right; repeat split; (reflexivity || assumption || discriminate) ].
Qed.

Lemma step_exit (w : world) (s : state) :
  step w s = Exit -> worklist s = [].
Proof. intros H. break_step H. reflexivity. Qed.

(** C1 as stated fails: one component with a [setup], two passes, two calls. *)
Lemma C1_counterexample :
  setup_twice single_world 2 [Obj 0] = Some ([Obj 0], [SetupCall 0; SetupCall 0])
  /\ count_setup 0 [SetupCall 0; SetupCall 0] <> 1.
Proof. split; [reflexivity | discriminate]. Qed.

(** C1, amended: within one call of [setup_components] the setup callback
    of any component instance is invoked at most once, however the call
    ends; [done] is created afresh by every call, so two passes over one
    manager invoke it at most once each (at most twice in total). *)
Theorem C1_setup_at_most_once_per_pass (w : world) (fuel : nat)
    (components : list pyref) (c : nat) :
  count_setup c (log (final_state (setup_components w fuel components))) <= 1
  /\ match setup_twice w fuel components with
     | Some (_, calls) => count_setup c calls <= 2
     | None => True
     end.
Proof.
  assert (Hone : forall cs,
             count_setup c (log (final_state (setup_components w fuel cs))) <= 1).
  { intros cs. apply count_setup_le_1. apply loop_calls_nodup.
    apply initial_calls_match_done. }
  split; [apply Hone|].
  unfold setup_twice.
  destruct (setup_components w fuel components) as [s1| |] eqn:H1; try exact I.
  destruct (setup_components w fuel (self_components s1)) as [s2| |] eqn:H2;
    try exact I.
  rewrite count_setup_app.
  pose proof (Hone components) as Ha. rewrite H1 in Ha.
  pose proof (Hone (self_components s1)) as Hb. rewrite H2 in Hb.
  cbn [final_state] in Ha, Hb. lia.
Qed.

(** C3 as stated fails: an iterable component that has a [setup] and
    defaults is unpacked and then set up itself. *)
Lemma C3_counterexample :
  iter_elems (obj container_world 0) = Some [Obj 1]
  /\ step container_world (start [Obj 0])
     = Continue {| worklist := [Obj 1]; self_components := [Obj 0; Obj 1];
                   done := [0];
                   log := [ReadDict container_defaults "component_configs" 0;
                           SetupCall 0] |}.
Proof. split; reflexivity. Qed.

(** C3, amended: when the dequeued entry is an iterable collection its
    elements are appended to the back of both the worklist and
    [self.components] (ahead of anything its own setup returns).  The
    container is then handled like any other entry: unless it is already
    in [done], its defaults are merged if it has the attribute and its
    setup is called if it has the attribute.  A container with neither
    attribute (a plain list or tuple) receives no call at all. *)
Theorem C3_container_unpacked (w : world) (s : state) (c : nat)
    (rest xs : list pyref) :
  worklist s = Obj c :: rest ->
  iter_elems (obj w c) = Some xs ->
  (exists s' subs,
      state_after (step w s) = Some s' /\
      worklist s' = rest ++ xs ++ subs /\
      self_components s' = self_components s ++ xs ++ subs /\
      log s' = log s ++ own_calls w c (done s)) /\
  (setup (obj w c) = None -> configuration_defaults (obj w c) = None ->
   step w s = Continue {| worklist := rest ++ xs;
                          self_components := self_components s ++ xs;
                          done := done s; log := log s |}).
Proof.
  intros Hwl Hit. unfold step, own_calls, defaults_call, setup_call.
  rewrite Hwl, Hit. cbn [elements].
  split.
  - destruct (py_in w c (done s)).
    + eexists; exists []. cbn [state_after worklist self_components log].
      now rewrite !app_nil_r.
    + destruct (configuration_defaults (obj w c)) as [d|];
        destruct (setup (obj w c)) as [[r|]|];
        try destruct (truthy r) eqn:Ht;
        eexists;
        first [ exists (elements r);
                cbn [state_after worklist self_components log];
                rewrite <- ?app_assoc, ?app_nil_r;
                repeat split; reflexivity
              | exists [];
                cbn [state_after worklist self_components log];
                rewrite <- ?app_assoc, ?app_nil_r;
                repeat split; reflexivity ].
  - intros -> ->. destruct (py_in w c (done s)); reflexivity.
Qed.

Lemma C3_container_unpacked_witness :
  step list_world (start [Obj 0; Obj 3])
  = Continue {| worklist := [Obj 3; Obj 1; Obj 2];
                self_components := [Obj 0; Obj 3; Obj 1; Obj 2];
                done := []; log := [] |}.
Proof.
  exact (proj2 (C3_container_unpacked list_world (start [Obj 0; Obj 3]) 0
                  [Obj 3] [Obj 1; Obj 2] eq_refl eq_refl) eq_refl eq_refl).
Defined.

(** C4 as stated fails: two distinct instances that compare equal, both in
    the worklist; only the first is set up. *)
Lemma C4_counterexample :
  py_eq equal_instances_world 1 0 = true
  /\ setup_components equal_instances_world 3 [Obj 0; Obj 1]
     = Finished {| worklist := []; self_components := [Obj 0; Obj 1];
                   done := [0]; log := [SetupCall 0] |}
  /\ count_setup 1 [SetupCall 0] = 0.
Proof. repeat split; reflexivity. Qed.

(** What an aborted iteration looks like. *)
Lemma step_abort_shape (w : world) (s s' : state) (e : exn) :
  step w s = Abort e s' ->
  (exists rest, worklist s = PyNone :: rest /\
                e = ComponentConfigError none_message /\
                s' = {| worklist := rest; self_components := self_components s;
                        done := done s; log := log s |}) \/
  (exists c rest, worklist s = Obj c :: rest /\ e = CallbackError c /\
                  setup (obj w c) = Some SetupRaises /\
                  py_in w c (done s) = false /\ done s' = done s).
Proof.
  intros H. break_step H; inversion H; subst; clear H.
  - left. eexists. repeat split.
  - right. do 2 eexists. repeat split; eassumption.
  - right. do 2 eexists. repeat split; eassumption.
Qed.

Lemma loop_done_have_setup (w : world) (fuel : nat) :
  forall s, done_have_setup w s ->
            done_have_setup w (final_state (loop w fuel s)).
Proof.
  induction fuel as [|fuel IH]; intros s Hs; cbn [loop]; [assumption|].
  destruct (step w s) as [|s1|e s1] eqn:Hstep; cbn [final_state].
  - assumption.
  - apply IH.
    destruct (step_continue_shape w s s1 Hstep)
      as (c0 & rest & added & _ & _ & _ & Hdone).
    intros d Hd.
    destruct Hdone as [(Hd' & _)|[(Hd' & _)|(Hd' & _ & Hset & _)]];
      rewrite Hd' in Hd; try (now apply Hs).
    apply in_app_or in Hd. destruct Hd as [Hd|[<-|[]]]; [now apply Hs|assumption].
  - destruct (step_abort_shape w s s1 e Hstep)
      as [(rest & _ & _ & ->)|(c & rest & _ & _ & _ & _ & Hd)].
    + exact Hs.
    + intros d Hin. rewrite Hd in Hin. now apply Hs.
Qed.

Lemma occurrences_app (c : nat) (l1 l2 : list pyref) :
  occurrences c (l1 ++ l2) = occurrences c l1 + occurrences c l2.
Proof. apply count_occ_app. Qed.

Lemma occurrences_cons_eq (c : nat) (l : list pyref) :
  occurrences c (Obj c :: l) = S (occurrences c l).
Proof. unfold occurrences. now apply count_occ_cons_eq. Qed.

Lemma occurrences_cons_neq (c c0 : nat) (l : list pyref) :
  c0 <> c -> occurrences c (Obj c0 :: l) = occurrences c l.
Proof. intros H. unfold occurrences. apply count_occ_cons_neq. congruence. Qed.

Lemma count_defaults_app (c : nat) (l1 l2 : list event) :
  count_defaults c (l1 ++ l2) = count_defaults c l1 + count_defaults c l2.
Proof. unfold count_defaults. now rewrite filter_app, length_app. Qed.

Lemma count_defaults_other (w : world) (c c0 : nat) :
  c0 <> c ->
  count_defaults c (match configuration_defaults (obj w c0) with
                    | Some d => [ReadDict d "component_configs" c0]
                    | None => []
                    end) = 0.
Proof.
  intros Hne. destruct (configuration_defaults (obj w c0)); [|reflexivity].
  unfold count_defaults. cbn.
  destruct (Nat.eqb_spec c c0); [congruence|reflexivity].
Qed.

(** Running out of fuel after [n] iterations and going on for [m] more. *)
Lemma loop_resume (w : world) (n m : nat) :
  forall s s1, loop w n s = OutOfFuel s1 -> loop w (n + m) s = loop w m s1.
Proof.
  induction n as [|n IH]; intros s s1 H; cbn [loop] in H.
  - injection H as <-. reflexivity.
  - cbn [Nat.add loop]. destruct (step w s) as [|s0|e s0]; try discriminate.
    now apply IH.
Qed.

(** An entry that is not [None] and whose [setup] does not raise is
    dequeued by an iteration that continues; what the iteration appends
    goes behind the entries that were waiting. *)
Lemma step_dequeues (w : world) (s : state) (c : nat) (rest : list pyref) :
  worklist s = Obj c :: rest ->
  setup (obj w c) <> Some SetupRaises ->
  exists s1 added,
    step w s = Continue s1 /\ worklist s1 = rest ++ added /\
    self_components s1 = self_components s ++ added.
Proof.
  intros Hwl Hok. destruct (step w s) as [|s1|e s1] eqn:Hstep.
  - apply step_exit in Hstep. congruence.
  - destruct (step_continue_shape w s s1 Hstep)
      as (c0 & rest0 & added & Hwl0 & Hwl1 & Hsc & _).
    rewrite Hwl in Hwl0. injection Hwl0 as <- <-.
    exists s1, added. auto.
  - destruct (step_abort_shape w s s1 e Hstep)
      as [(rest0 & Hwl0 & _)|(c0 & rest0 & Hwl0 & _ & Hraise & _)];
      rewrite Hwl in Hwl0; [discriminate|].
    injection Hwl0 as <- <-. contradiction.
Qed.

(** The entries in front of the queue are dequeued one per iteration, in
    order; after [length pre] iterations the entry behind them is at the
    front. *)
Lemma loop_dequeues_prefix (w : world) (pre : list pyref) :
  forall s tail,
    worklist s = pre ++ tail ->
    ~ In PyNone pre ->
    (forall c, In (Obj c) pre -> setup (obj w c) <> Some SetupRaises) ->
    exists s1 extra,
      loop w (List.length pre) s = OutOfFuel s1 /\
      worklist s1 = tail ++ extra /\
      self_components s1 = self_components s ++ extra.
Proof.
  induction pre as [|x pre IH]; intros s tail Hwl Hnone Hok.
  - exists s, []. cbn. now rewrite !app_nil_r.
  - destruct x as [|c]; [exfalso; apply Hnone; now left|].
    destruct (step_dequeues w s c (pre ++ tail) Hwl) as (s1 & added & Hstep & Hwl1 & Hsc1).
    { apply Hok. now left. }
    rewrite <- app_assoc in Hwl1.
    destruct (IH s1 (tail ++ added) Hwl1) as (s2 & extra & Hloop & Hwl2 & Hsc2).
    { intros Hin. apply Hnone. now right. }
    { intros c' Hin. apply Hok. now right. }
    exists s2, (added ++ extra). cbn [List.length loop]. rewrite Hstep.
    split; [assumption|]. rewrite Hwl2, Hsc2, Hsc1, <- !app_assoc. auto.
Qed.

(** C7: when the worklist holds a [None] and no setup callback of an
    entry in front of it raises, the pass dequeues those entries one per
    iteration, each iteration continuing, and then raises the
    ComponentConfigError at the iteration that dequeues the [None].  The
    state at the error is the state those iterations left: no call is
    logged at or after the error, and the entries behind the [None] are
    still in the queue. *)
Theorem C7_none_aborts_when_dequeued (w : world) (s : state)
    (pre post : list pyref) (fuel : nat) :
  worklist s = pre ++ PyNone :: post ->
  ~ In PyNone pre ->
  (forall c, In (Obj c) pre -> setup (obj w c) <> Some SetupRaises) ->
  List.length pre < fuel ->
  exists s1 extra,
    loop w (List.length pre) s = OutOfFuel s1 /\
    worklist s1 = PyNone :: post ++ extra /\
    loop w fuel s
    = Raised (ComponentConfigError none_message)
             {| worklist := post ++ extra;
                self_components := self_components s1;
                done := done s1; log := log s1 |}.
Proof.
  intros Hwl Hnone Hok Hfuel.
  destruct (loop_dequeues_prefix w pre s (PyNone :: post) Hwl Hnone Hok)
    as (s1 & extra & Hloop & Hwl1 & _).
  exists s1, extra. split; [assumption|]. split; [assumption|].
  replace fuel with (List.length pre + S (fuel - S (List.length pre))) by lia.
  rewrite (loop_resume w _ _ s s1 Hloop). cbn [loop]. unfold step.
  rewrite Hwl1. reflexivity.
Qed.

Lemma C7_none_aborts_when_dequeued_witness :
  loop single_world 10 (start [Obj 0; PyNone; Obj 1])
  = Raised (ComponentConfigError none_message)
           {| worklist := [Obj 1]; self_components := [Obj 0; PyNone; Obj 1];
              done := [0]; log := [SetupCall 0] |}.
Proof.
  destruct (C7_none_aborts_when_dequeued single_world
              (start [Obj 0; PyNone; Obj 1]) [Obj 0] [Obj 1] 10)
    as (s1 & extra & H1 & H2 & H3).
  - reflexivity.
  - intros [H|[]]. discriminate H.
  - intros c _. discriminate.
  - cbn. lia.
  - reflexivity.
Defined.

Lemma loop_out_of_fuel_inv (w : world) (n : nat) :
  forall s s1, calls_match_done s -> loop w n s = OutOfFuel s1 ->
               calls_match_done s1.
Proof.
  induction n as [|n IH]; intros s s1 Hs H; cbn [loop] in H.
  - now injection H as <-.
  - destruct (step w s) as [|s0|e s0] eqn:Hstep; try discriminate.
    eapply IH; [|eassumption]. eapply step_continue_inv; eassumption.
Qed.

(** A pass that finishes from [s] still finishes, in fewer iterations,
    from any state it passes through. *)
Lemma loop_finished_from (w : world) (n : nat) :
  forall fuel s s1 s',
    loop w n s = OutOfFuel s1 -> loop w fuel s = Finished s' ->
    n <= fuel /\ loop w (fuel - n) s1 = Finished s'.
Proof.
  induction n as [|n IH]; intros fuel s s1 s' Hn Hf; cbn [loop] in Hn.
  - injection Hn as <-. rewrite Nat.sub_0_r. split; [lia|assumption].
  - destruct fuel as [|fuel]; [discriminate|]. cbn [loop] in Hf.
    destruct (step w s) as [|s0|e s0]; try discriminate.
    destruct (IH fuel s0 s1 s' Hn Hf) as [Hle Hrest].
    split; [lia|exact Hrest].
Qed.

(** In a pass that finishes every entry of the queue is dequeued in turn. *)
Lemma loop_finished_prefix (w : world) (pre : list pyref) :
  forall fuel s s' tail,
    loop w fuel s = Finished s' ->
    worklist s = pre ++ tail ->
    exists s1 extra,
      loop w (List.length pre) s = OutOfFuel s1 /\
      worklist s1 = tail ++ extra.
Proof.
  induction pre as [|x pre IH]; intros fuel s s' tail Hf Hwl.
  - exists s, []. cbn. now rewrite app_nil_r.
  - destruct fuel as [|fuel]; [discriminate|]. cbn [loop] in Hf.
    destruct (step w s) as [|s0|e s0] eqn:Hstep; try discriminate.
    + apply step_exit in Hstep. rewrite Hstep in Hwl. discriminate.
    + destruct (step_continue_shape w s s0 Hstep)
        as (c0 & rest & added & Hwl0 & Hwl1 & _).
      rewrite Hwl in Hwl0. cbn [app] in Hwl0. injection Hwl0 as -> <-.
      rewrite <- app_assoc in Hwl1.
      destruct (IH fuel s0 s' (tail ++ added) Hf Hwl1) as (s1 & extra & Hl & Hw).
      exists s1, (added ++ extra). cbn [List.length loop]. rewrite Hstep.
      split; [assumption|]. now rewrite Hw, app_assoc.
Qed.

(** ** Further properties of the setup pass *)

(** What any iteration that ran does to the two lists: one entry leaves
    the front of the worklist, and whatever is appended is appended to
    both. *)
Lemma step_lists (w : world) (s s' : state) :
  state_after (step w s) = Some s' ->
  exists x rest added,
    worklist s = x :: rest /\
    worklist s' = rest ++ added /\
    self_components s' = self_components s ++ added.
Proof.
  intros H. destruct (step w s) as [|s1|e s1] eqn:Hstep; cbn in H;
    [discriminate| |]; injection H as ->.
  - destruct (step_continue_shape w s s' Hstep)
      as (c & rest & added & Hwl & Hwl' & Hsc & _).
    exists (Obj c), rest, added. auto.
  - break_step Hstep; inversion Hstep; subst; clear Hstep;
      cbn [worklist self_components];
      do 2 eexists; eexists;
      (split; [reflexivity|]);
      first [ split; [symmetry; apply app_nil_r|symmetry; apply app_nil_r]
            | split; reflexivity ].
Qed.

Lemma loop_components_grow (w : world) (fuel : nat) :
  forall s, exists ext,
    self_components (final_state (loop w fuel s)) = self_components s ++ ext.
Proof.
  induction fuel as [|fuel IH]; intros s; cbn [loop].
  - exists []. now rewrite app_nil_r.
  - destruct (step w s) as [|s1|e s1] eqn:Hstep; cbn [final_state].
    + exists []. now rewrite app_nil_r.
    + destruct (step_lists w s s1) as (x & rest & added & _ & _ & Hsc);
        [now rewrite Hstep|].
      destruct (IH s1) as [ext Hext]. exists (added ++ ext).
      now rewrite Hext, Hsc, app_assoc.
    + destruct (step_lists w s s1) as (x & rest & added & _ & _ & Hsc);
        [now rewrite Hstep|].
      exists added. assumption.
Qed.

(** X2: [setup_components] never removes or reorders a registered
    component: however the call ends (finished, aborted by [None], aborted
    by a callback, or still running), the list it started from is a prefix
    of [self.components]. *)
Theorem X2_components_only_grow (w : world) (fuel : nat)
    (components : list pyref) :
  exists ext,
    self_components (final_state (setup_components w fuel components))
    = components ++ ext.
Proof. apply (loop_components_grow w fuel (start components)). Qed.

(** In a world without iterables an iteration that continues either
    leaves [done] alone and only pops the entry, or appends the entry to
    [done] and what its setup returned to the worklist. *)
Lemma step_continue_flat (w : world) (s s' : state) (c : nat)
    (rest : list pyref) :
  step w s = Continue s' ->
  worklist s = Obj c :: rest ->
  iter_elems (obj w c) = None ->
  (done s' = done s /\ worklist s' = rest) \/
  (exists r, setup (obj w c) = Some (SetupReturns r) /\
             py_in w c (done s) = false /\
             done s' = done s ++ [c] /\
             worklist s' = rest ++ elements r).
Proof.
  intros H Hwl Hit. unfold step in H. rewrite Hwl, Hit in H.
  cbn [elements] in H. rewrite app_nil_r in H.
  destruct (py_in w c (done s)) eqn:Hin.
  - injection H as <-. left. auto.
  - destruct (setup (obj w c)) as [[r|]|] eqn:Hset; [| discriminate |].
    + right. exists r. destruct (truthy r) eqn:Ht; injection H as <-;
        cbn [done worklist]; repeat split; try reflexivity.
      destruct r as [[|x xs]|]; try discriminate; cbn; now rewrite app_nil_r.
    + injection H as <-. left. auto.
Qed.

Lemma nodup_below_length (N : nat) (l : list nat) :
  NoDup l -> (forall d, In d l -> d < N) -> List.length l <= N.
Proof.
  intros Hnd Hlt.
  assert (Hincl : incl l (seq 0 N)).
  { intros d Hd. apply in_seq. specialize (Hlt d Hd). lia. }
  pose proof (NoDup_incl_length Hnd Hincl) as Hlen.
  now rewrite length_seq in Hlen.
Qed.

(** The measure that bounds the number of iterations left: the entries
    on the worklist plus [L] for every object not yet in [done]. *)
Lemma loop_bounded_terminates (w : world) (N L : nat) :
  bounded_world w N L ->
  forall fuel s,
    ids_below N (worklist s) ->
    NoDup (done s) -> (forall d, In d (done s) -> d < N) ->
    List.length (worklist s) + L * (N - List.length (done s)) < fuel ->
    is_out_of_fuel (loop w fuel s) = false.
Proof.
  intros Hw. induction fuel as [|fuel IH]; intros s Hids Hnd Hlt Hfuel;
    [exfalso; exact (Nat.nlt_0_r _ Hfuel)|].
  cbn [loop]. destruct (step w s) as [|s1|e s1] eqn:Hstep; try reflexivity.
  destruct (step_continue_shape w s s1 Hstep) as (c & rest & added & Hwl & _).
  assert (Hc : c < N) by (apply Hids; rewrite Hwl; now left).
  destruct (Hw c Hc) as [Hit Hret].
  pose proof (nodup_below_length N (done s) Hnd Hlt) as Hlen.
  rewrite Hwl in Hfuel. cbn [List.length] in Hfuel.
  destruct (step_continue_flat w s s1 c rest Hstep Hwl Hit)
    as [(Hd & Hw1)|(r & Hset & Hnot & Hd & Hw1)].
  - apply IH.
    + rewrite Hw1. intros i Hi. apply Hids. rewrite Hwl. now right.
    + now rewrite Hd.
    + now rewrite Hd.
    + rewrite Hd, Hw1.
      remember (L * (N - List.length (done s))) as k. lia.
  - destruct (Hret r Hset) as [HL Hbelow].
    assert (Hnd1 : NoDup (done s1)).
    { rewrite Hd. apply NoDup_snoc; [assumption|].
      now apply (not_py_in_not_In w). }
    assert (Hlt1 : forall d, In d (done s1) -> d < N).
    { intros d Hin. rewrite Hd in Hin. apply in_app_or in Hin.
      destruct Hin as [Hin|[<-|[]]]; auto. }
    pose proof (nodup_below_length N (done s1) Hnd1 Hlt1) as Hlen1.
    apply IH; try assumption.
    + rewrite Hw1. intros i Hi. apply in_app_or in Hi.
      destruct Hi as [Hi|Hi]; [apply Hids; rewrite Hwl; now right|auto].
    + rewrite Hw1, length_app. rewrite Hd, length_app in *.
      cbn [List.length] in *.
      replace (N - List.length (done s))
        with (S (N - (List.length (done s) + 1))) in Hfuel by lia.
      rewrite Nat.mul_succ_r in Hfuel.
      remember (L * (N - (List.length (done s) + 1))) as k. lia.
Qed.

(** X3: no iterable, no endless pass.  When no object is a container and
    every setup callback returns at most [L] components out of a universe
    of [N] objects, [setup_components] ends (by finishing or by raising)
    within [length components + L * N] iterations, whatever the callbacks
    return; components whose setups return each other in a cycle do not
    make the pass loop, because a component in [done] is not set up
    again. *)
Theorem X3_pass_without_containers_terminates (w : world) (N L fuel : nat)
    (components : list pyref) :
  bounded_world w N L ->
  ids_below N components ->
  List.length components + L * N < fuel ->
  is_out_of_fuel (setup_components w fuel components) = false.
Proof.
  intros Hw Hids Hfuel. unfold setup_components.
  apply (loop_bounded_terminates w N L Hw); cbn [start worklist done].
  - assumption.
  - constructor.
  - intros d [].
  - cbn [List.length]. rewrite Nat.sub_0_r. assumption.
Qed.

Lemma X3_pass_without_containers_terminates_witness :
  is_out_of_fuel (setup_components cycle_world 4 [Obj 0]) = false.
Proof.
  apply (X3_pass_without_containers_terminates cycle_world 2 1 4 [Obj 0]).
  - intros c Hc. destruct c as [|[|c]]; [| |lia]; (split; [reflexivity|]);
      intros r Hr; injection Hr as <-; cbn; (split; [lia|]);
      intros i [Hi|[]]; injection Hi as <-; lia.
  - intros i [Hi|[]]. injection Hi as <-. lia.
  - cbn. lia.
Defined.

(** The calls one iteration makes are the calls of the entry it dequeues. *)
Lemma step_log (w : world) (s s' : state) :
  state_after (step w s) = Some s' ->
  (exists rest, worklist s = PyNone :: rest /\ log s' = log s) \/
  (exists c rest, worklist s = Obj c :: rest /\
                  log s' = log s ++ own_calls w c (done s)).
Proof.
  unfold step, own_calls, defaults_call, setup_call.
  destruct (worklist s) as [|[|c] rest]; cbn [state_after]; [discriminate| |].
  - intros H. injection H as <-. left. eauto.
  - intros H. right. exists c, rest. split; [reflexivity|].
    destruct (py_in w c (done s)).
    + injection H as <-. cbn [log]. now rewrite app_nil_r.
    + destruct (configuration_defaults (obj w c)) as [d|];
        destruct (setup (obj w c)) as [[r|]|];
        try destruct (truthy r);
        injection H as <-; cbn [log app];
        rewrite <- ?app_assoc, ?app_nil_r; reflexivity.
Qed.

Lemma own_calls_balanced (w : world) (c c0 : nat) (d : conf) (l : list nat) :
  setup (obj w c) <> None ->
  configuration_defaults (obj w c) = Some d ->
  count_defaults c (own_calls w c0 l) = count_setup c (own_calls w c0 l).
Proof.
  intros Hset Hdef. unfold own_calls, defaults_call, setup_call.
  destruct (py_in w c0 l); [reflexivity|].
  destruct (Nat.eq_dec c0 c) as [->|Hne].
  - rewrite Hdef. destruct (setup (obj w c)); [|contradiction].
    unfold count_defaults, count_setup. cbn. now rewrite Nat.eqb_refl.
  - assert (Hb : Nat.eqb c c0 = false) by (apply Nat.eqb_neq; congruence).
    unfold count_defaults, count_setup.
    destruct (configuration_defaults (obj w c0));
      destruct (setup (obj w c0)); cbn; rewrite ?Hb; reflexivity.
Qed.

Lemma loop_calls_balanced (w : world) (c : nat) (d : conf) (fuel : nat) :
  setup (obj w c) <> None ->
  configuration_defaults (obj w c) = Some d ->
  forall s,
    count_defaults c (log s) = count_setup c (log s) ->
    count_defaults c (log (final_state (loop w fuel s)))
    = count_setup c (log (final_state (loop w fuel s))).
Proof.
  intros Hset Hdef. induction fuel as [|fuel IH]; intros s Hs; cbn [loop];
    [assumption|].
  assert (Hstep : forall s1, state_after (step w s) = Some s1 ->
                             count_defaults c (log s1) = count_setup c (log s1)).
  { intros s1 H1.
    destruct (step_log w s s1 H1) as [(rest & _ & ->)|(c0 & rest & _ & ->)];
      [assumption|].
    rewrite count_defaults_app, count_setup_app, Hs.
    now rewrite (own_calls_balanced w c c0 d (done s) Hset Hdef). }
  destruct (step w s) as [|s1|e s1]; cbn [final_state].
  - assumption.
  - apply IH. now apply Hstep.
  - now apply Hstep.
Qed.

(** X4: a component that declares [configuration_defaults] and exposes
    [setup] has its defaults read exactly as often as its setup is
    called, however the pass ends: at most once per pass, whatever the
    number of times it occurs in the list.  (Without [setup] the defaults
    are read at every occurrence.) *)
Theorem X4_defaults_read_with_setup (w : world) (c : nat) (d : conf)
    (fuel : nat) (components : list pyref) :
  setup (obj w c) <> None ->
  configuration_defaults (obj w c) = Some d ->
  count_defaults c (log (final_state (setup_components w fuel components)))
  = count_setup c (log (final_state (setup_components w fuel components)))
  /\ count_defaults c (log (final_state (setup_components w fuel components))) <= 1.
Proof.
  intros Hset Hdef.
  assert (Heq : count_defaults c (log (final_state (setup_components w fuel components)))
                = count_setup c (log (final_state (setup_components w fuel components)))).
  { unfold setup_components. now apply (loop_calls_balanced w c d). }
  split; [exact Heq|]. rewrite Heq.
  apply count_setup_le_1, loop_calls_nodup, initial_calls_match_done.
Qed.

Lemma X4_defaults_read_with_setup_witness :
  count_defaults 0
    (log (final_state (setup_components clock_world 5 [Obj 0; Obj 0; Obj 0])))
  = count_setup 0
      (log (final_state (setup_components clock_world 5 [Obj 0; Obj 0; Obj 0])))
  /\ count_defaults 0
       (log (final_state (setup_components clock_world 5 [Obj 0; Obj 0; Obj 0])))
     <= 1.
Proof.
  apply (X4_defaults_read_with_setup clock_world 0 clock_defaults 5
           [Obj 0; Obj 0; Obj 0]).
  - discriminate.
  - reflexivity.
Defined.

(** While the entries in front of the queue are dequeued, only they can
    be appended to [done]. *)
Lemma loop_prefix_done (w : world) (pre : list pyref) :
  forall s s1 tail,
    loop w (List.length pre) s = OutOfFuel s1 ->
    worklist s = pre ++ tail ->
    exists d, done s1 = done s ++ d /\ forall b, In b d -> In (Obj b) pre.
Proof.
  induction pre as [|x pre IH]; intros s s1 tail Hloop Hwl;
    cbn [List.length loop] in Hloop.
  - injection Hloop as <-. exists []. rewrite app_nil_r. split; [reflexivity|].
    intros b [].
  - destruct (step w s) as [|s0|e s0] eqn:Hstep; try discriminate.
    destruct (step_continue_shape w s s0 Hstep)
      as (c & rest & added & Hwl0 & Hwl1 & _ & Hdone).
    rewrite Hwl in Hwl0. cbn [app] in Hwl0. injection Hwl0 as -> <-.
    rewrite <- app_assoc in Hwl1.
    destruct (IH s0 s1 (tail ++ added) Hloop Hwl1) as (d & Hd & Hsub).
    destruct Hdone as [(Hd0 & _)|[(Hd0 & _)|(Hd0 & _)]]; rewrite Hd0 in Hd.
    + exists d. split; [assumption|]. intros b Hb. right. auto.
    + exists d. split; [assumption|]. intros b Hb. right. auto.
    + exists (c :: d). rewrite <- app_assoc in Hd. split; [assumption|].
      intros b [<-|Hb]; [now left|right; auto].
Qed.

Lemma loop_finished_done_grows (w : world) (fuel : nat) :
  forall s s', loop w fuel s = Finished s' ->
               exists more, done s' = done s ++ more.
Proof.
  induction fuel as [|fuel IH]; intros s s' H; cbn [loop] in H; [discriminate|].
  destruct (step w s) as [|s1|e s1] eqn:Hstep; try discriminate.
  - injection H as <-. exists []. now rewrite app_nil_r.
  - destruct (IH s1 s' H) as [more Hmore].
    destruct (step_continue_shape w s s1 Hstep)
      as (c & rest & added & _ & _ & _ & Hdone).
    destruct Hdone as [(Hd0 & _)|[(Hd0 & _)|(Hd0 & _)]]; rewrite Hd0 in Hmore.
    + eauto.
    + eauto.
    + exists (c :: more). now rewrite <- app_assoc in Hmore.
Qed.

(** The order of the setup calls follows the order of the list: the
    components set up before [a] are among the entries in front of it. *)
Lemma setup_order (w : world) (fuel : nat) (l1 l2 : list pyref) (a : nat)
    (s' : state) :
  setup_components w fuel (l1 ++ Obj a :: l2) = Finished s' ->
  setup (obj w a) <> None ->
  compares_by_identity w a ->
  exists d1 d2,
    setup_calls (log s') = d1 ++ a :: d2 /\
    forall b, In b d1 -> In (Obj b) l1.
Proof.
  intros Hrun Hset Hid. unfold setup_components in Hrun.
  destruct (loop_finished_inv w fuel _ s' (initial_calls_match_done _) Hrun)
    as [Hlog _]. rewrite Hlog.
  destruct (loop_finished_prefix w l1 fuel _ s' (Obj a :: l2) Hrun eq_refl)
    as (s1 & extra & Hpre & Hwl1).
  destruct (loop_prefix_done w l1 _ s1 (Obj a :: l2) Hpre eq_refl)
    as (d & Hd & Hsub).
  cbn [start done app] in Hd.
  destruct (loop_finished_from w _ fuel _ s1 s' Hpre Hrun) as [_ Hrest].
  destruct (in_dec Nat.eq_dec a d) as [Hin|Hnotin].
  - destruct (loop_finished_done_grows w _ s1 s' Hrest) as [more Hmore].
    destruct (in_split a d Hin) as (x & y & ->).
    exists x, (y ++ more). split.
    + rewrite Hmore, Hd, <- app_assoc. reflexivity.
    + intros b Hb. apply Hsub. apply in_or_app. now left.
  - destruct (fuel - List.length l1) as [|f]; [discriminate|].
    cbn [loop] in Hrest.
    destruct (step w s1) as [|s2|e s2] eqn:Hstep; try discriminate.
    { apply step_exit in Hstep. rewrite Hstep in Hwl1. discriminate. }
    destruct (step_continue_shape w s1 s2 Hstep)
      as (c & rest & added & Hwl0 & _ & _ & Hdone).
    rewrite Hwl1 in Hwl0. cbn [app] in Hwl0. injection Hwl0 as <- _.
    destruct (loop_finished_done_grows w f s2 s' Hrest) as [more Hmore].
    destruct Hdone as [(_ & _ & Hpy)|[(_ & _ & Hno & _)|(Hd2 & _)]].
    + apply (py_in_identity w a _ Hid) in Hpy. rewrite Hd in Hpy. contradiction.
    + contradiction.
    + exists d, more. split; [|exact Hsub].
      rewrite Hmore, Hd2, Hd, <- app_assoc. reflexivity.
Qed.

(** X5: setup order follows list order.  In a pass that finishes, every
    component whose setup was called before that of [a] stood in front of
    [a] in the list the pass started from; nothing discovered during the
    pass and nothing listed behind [a] overtakes it. *)
Theorem X5_setup_follows_list_order (w : world) (fuel : nat)
    (l1 l2 : list pyref) (a : nat) (s' : state) :
  setup_components w fuel (l1 ++ Obj a :: l2) = Finished s' ->
  setup (obj w a) <> None ->
  compares_by_identity w a ->
  exists d1 d2,
    setup_calls (log s') = d1 ++ a :: d2 /\
    forall b, In b d1 -> In (Obj b) l1.
Proof. apply setup_order. Qed.

Lemma X5_setup_follows_list_order_witness :
  exists d1 d2,
    [0; 1; 2; 3] = d1 ++ 1 :: d2 /\
    forall b, In b d1 -> In (Obj b) [Obj 0].
Proof.
  refine (X5_setup_follows_list_order discovery_world 10 [Obj 0] [] 1
            {| worklist := [];
               self_components := [Obj 0; Obj 1; Obj 2; Obj 3];
               done := [0; 1; 2; 3];
               log := [SetupCall 0; SetupCall 1; SetupCall 2; SetupCall 3] |}
            eq_refl _ _).
  - discriminate.
  - intros d _. reflexivity.
Defined.

(** X6: components registered through [add_components] are put in front
    of those already held.  So in a pass that finishes, for a component
    [a] passed to [add_components] that exposes [setup] and compares equal
    to no other object, every component set up before [a] was itself
    passed to [add_components]. *)
Theorem X6_added_components_set_up_first (w : world) (fuel : nat)
    (added held : list pyref) (a : nat) (s' : state) :
  setup_components w fuel (add_components added held) = Finished s' ->
  In (Obj a) added ->
  setup (obj w a) <> None ->
  compares_by_identity w a ->
  exists d1 d2,
    setup_calls (log s') = d1 ++ a :: d2 /\
    forall b, In b d1 -> In (Obj b) added.
Proof.
  intros Hrun Hin Hset Hid. unfold add_components in Hrun.
  destruct (in_split (Obj a) added Hin) as (x & y & ->).
  rewrite <- app_assoc in Hrun. cbn [app] in Hrun.
  destruct (setup_order w fuel x (y ++ held) a s' Hrun Hset Hid)
    as (d1 & d2 & Hcalls & Hsub).
  exists d1, d2. split; [assumption|].
  intros b Hb. apply in_or_app. left. auto.
Qed.

Lemma X6_added_components_set_up_first_witness :
  exists d1 d2,
    [4; 5; 0; 2; 3] = d1 ++ 5 :: d2 /\
    forall b, In b d1 -> In (Obj b) [Obj 4; Obj 5].
Proof.
  refine (X6_added_components_set_up_first discovery_world 10
            [Obj 4; Obj 5] [Obj 0] 5
            {| worklist := [];
               self_components := [Obj 4; Obj 5; Obj 0; Obj 2; Obj 3];
               done := [4; 5; 0; 2; 3];
               log := [SetupCall 4; SetupCall 5; SetupCall 0; SetupCall 2;
                       SetupCall 3] |}
            eq_refl _ _ _).
  - right. now left.
  - discriminate.
  - intros d _. reflexivity.
Defined.

(** X24: an exception of a setup callback leaves the pass at once.  Let
    [c] be a component whose setup raises, that compares equal to no
    other object and is not in [done], behind entries that hold no [None]
    and whose setups do not raise.  Then the pass ends with that
    exception at the iteration that dequeues [c]: the defaults of [c]
    have been read and its setup called, [c] is not in [done], [done] is
    what the earlier iterations left, and the entries behind [c] are
    still queued. *)
Theorem X24_callback_exception_aborts (w : world) (s : state)
    (pre post : list pyref) (c fuel : nat) :
  worklist s = pre ++ Obj c :: post ->
  ~ In PyNone pre ->
  (forall c', In (Obj c') pre -> setup (obj w c') <> Some SetupRaises) ->
  setup (obj w c) = Some SetupRaises ->
  compares_by_identity w c ->
  ~ In c (done s) ->
  List.length pre < fuel ->
  exists s1 s',
    loop w (List.length pre) s = OutOfFuel s1 /\
    loop w fuel s = Raised (CallbackError c) s' /\
    done s' = done s1 /\ ~ In c (done s') /\
    log s' = log s1 ++ defaults_call w c ++ [SetupCall c] /\
    exists extra, worklist s' = post ++ extra.
Proof.
  intros Hwl Hnone Hok Hraise Hid Hnot Hfuel.
  destruct (loop_dequeues_prefix w pre s (Obj c :: post) Hwl Hnone Hok)
    as (s1 & extra & Hloop & Hwl1 & _).
  destruct (loop_prefix_done w pre s s1 (Obj c :: post) Hloop Hwl)
    as (d & Hd & Hsub).
  assert (Hnot1 : ~ In c (done s1)).
  { rewrite Hd. intros Hin. apply in_app_or in Hin. destruct Hin as [Hin|Hin];
      [contradiction|]. apply Hsub in Hin. now apply (Hok c Hin). }
  assert (Hpy : py_in w c (done s1) = false).
  { destruct (py_in w c (done s1)) eqn:Hpy; [|reflexivity].
    now apply (py_in_identity w c _ Hid) in Hpy. }
  exists s1.
  replace fuel with (List.length pre + S (fuel - S (List.length pre))) by lia.
  rewrite (loop_resume w _ _ s s1 Hloop). cbn [loop]. unfold step.
  rewrite Hwl1. cbn [app]. rewrite Hpy, Hraise.
  eexists. split; [assumption|]. split; [reflexivity|].
  cbn [done log worklist]. split; [reflexivity|]. split; [assumption|].
  split.
  - unfold defaults_call. destruct (configuration_defaults (obj w c));
      now rewrite <- ?app_assoc.
  - exists (extra ++ elements (iter_elems (obj w c))). now rewrite app_assoc.
Qed.

Lemma X24_callback_exception_aborts_witness :
  exists s1 s',
    loop failing_world 1 (start [Obj 0; Obj 1; Obj 2]) = OutOfFuel s1 /\
    loop failing_world 10 (start [Obj 0; Obj 1; Obj 2])
    = Raised (CallbackError 1) s' /\
    done s' = done s1 /\ ~ In 1 (done s') /\
    log s' = log s1 ++ defaults_call failing_world 1 ++ [SetupCall 1] /\
    exists extra, worklist s' = [Obj 2] ++ extra.
Proof.
  apply (X24_callback_exception_aborts failing_world
           (start [Obj 0; Obj 1; Obj 2]) [Obj 0] [Obj 2] 1 10).
  - reflexivity.
  - intros [H|[]]. discriminate H.
  - intros c' [H|[]]. injection H as <-. discriminate.
  - reflexivity.
  - intros d _. reflexivity.
  - intros [].
  - cbn. lia.
Defined.

(** ** Single initialisation, without assuming that the pass finishes *)

Lemma loop_log_grows (w : world) (fuel : nat) :
  forall s, exists more, log (final_state (loop w fuel s)) = log s ++ more.
Proof.
  induction fuel as [|fuel IH]; intros s; cbn [loop].
  - exists []. now rewrite app_nil_r.
  - assert (Hstep : forall s1, state_after (step w s) = Some s1 ->
                               exists more, log s1 = log s ++ more).
    { intros s1 H1.
      destruct (step_log w s s1 H1) as [(rest & _ & ->)|(c0 & rest & _ & ->)];
        [exists []; now rewrite app_nil_r|eauto]. }
    destruct (step w s) as [|s1|e s1]; cbn [final_state].
    + exists []. now rewrite app_nil_r.
    + destruct (Hstep s1 eq_refl) as [m1 H1]. destruct (IH s1) as [m2 H2].
      exists (m1 ++ m2). now rewrite H2, H1, app_assoc.
    + exact (Hstep s1 eq_refl).
Qed.

(** Once the entries in front of the queue have been dequeued, each of
    them that exposes [setup] is in [done] by the loop's own test. *)
Lemma loop_prefix_pending (w : world) (pre : list pyref) :
  forall s s1 tail c,
    loop w (List.length pre) s = OutOfFuel s1 ->
    worklist s = pre ++ tail ->
    In (Obj c) pre ->
    setup (obj w c) <> None ->
    py_in w c (done s1) = true.
Proof.
  induction pre as [|x pre IH]; intros s s1 tail c Hloop Hwl Hin Hset;
    [destruct Hin|]. cbn [List.length loop] in Hloop.
  destruct (step w s) as [|s0|e s0] eqn:Hstep; try discriminate.
  destruct (step_continue_shape w s s0 Hstep)
    as (c0 & rest & added & Hwl0 & Hwl1 & _ & Hdone).
  rewrite Hwl in Hwl0. cbn [app] in Hwl0. injection Hwl0 as -> <-.
  rewrite <- app_assoc in Hwl1.
  destruct Hin as [Heq|Hin]; [|exact (IH s0 s1 _ c Hloop Hwl1 Hin Hset)].
  injection Heq as ->.
  destruct (loop_prefix_done w pre s0 s1 _ Hloop Hwl1) as (d & Hd & _).
  rewrite Hd, py_in_app. apply orb_true_iff. left.
  destruct Hdone as [(Hd0 & _ & Hpy)|[(_ & _ & Hno & _)|(Hd0 & _)]].
  - now rewrite Hd0.
  - contradiction.
  - rewrite Hd0, py_in_app. apply orb_true_iff. right.
    apply py_in_In. now left.
Qed.

(** A component that is in [done] after [k] iterations has had its setup
    called exactly once, however much further the pass is run. *)
Lemma reached_counted_from (w : world) (s : state) (k fuel : nat)
    (s1 : state) (c : nat) :
  calls_match_done s ->
  loop w k s = OutOfFuel s1 ->
  In c (done s1) ->
  k <= fuel ->
  count_setup c (log (final_state (loop w fuel s))) = 1.
Proof.
  intros Hinv Hreach Hin Hfuel.
  pose proof (count_setup_le_1 c _ (loop_calls_nodup w fuel s Hinv)) as Hle.
  replace fuel with (k + (fuel - k)) in * by lia.
  rewrite (loop_resume w k _ _ s1 Hreach) in *.
  destruct (loop_log_grows w (fuel - k) s1) as [more Hmore].
  destruct (loop_out_of_fuel_inv w k _ s1 Hinv Hreach) as [Hlog _].
  assert (Hge : 1 <= count_setup c (log (final_state (loop w (fuel - k) s1)))).
  { rewrite Hmore, count_setup_app, count_setup_calls, Hlog.
    pose proof (proj1 (count_occ_In Nat.eq_dec (done s1) c) Hin). lia. }
  lia.
Qed.

Lemma reached_counted (w : world) (components : list pyref) (k fuel : nat)
    (s1 : state) (c : nat) :
  loop w k (start components) = OutOfFuel s1 ->
  In c (done s1) ->
  k <= fuel ->
  count_setup c (log (final_state (setup_components w fuel components))) = 1.
Proof.
  unfold setup_components.
  apply reached_counted_from, initial_calls_match_done.
Qed.

(** The entries a pass starts from are all dequeued after as many
    iterations, when none of them is [None] and none of their callbacks
    raises. *)
Lemma listed_entries_dequeued (w : world) (components : list pyref) :
  ~ In PyNone components ->
  (forall c, In (Obj c) components -> setup (obj w c) <> Some SetupRaises) ->
  exists s1,
    loop w (List.length components) (start components) = OutOfFuel s1 /\
    forall c, In (Obj c) components -> setup (obj w c) <> None ->
              py_in w c (done s1) = true.
Proof.
  intros Hnone Hok.
  destruct (loop_dequeues_prefix w components (start components) []
              (eq_sym (app_nil_r _)) Hnone Hok) as (s1 & extra & Hloop & _).
  exists s1. split; [assumption|]. intros c Hin Hset.
  exact (loop_prefix_pending w components _ s1 [] c Hloop
           (eq_sym (app_nil_r _)) Hin Hset).
Qed.

Lemma skipped_when_equal (w : world) (s : state) (c d : nat)
    (rest : list pyref) :
  worklist s = Obj c :: rest -> In d (done s) -> py_eq w c d = true ->
  step w s = Continue (skipped w s c rest).
Proof.
  intros Hwl Hd Heq.
  assert (Hin : py_in w c (done s) = true).
  { unfold py_in. apply existsb_exists. exists d. split; [assumption|].
    rewrite Heq. apply orb_true_r. }
  unfold step. now rewrite Hwl, Hin.
Qed.

(** C4, amended: [done] is a list searched with [in], that is by identity
    and then by [==].  Take a pass that starts from a list holding no
    [None] and no component whose setup raises.  Two distinct instances in
    the list that expose [setup] and each compare equal to no other object
    (the default comparison) have had their setup callbacks invoked
    exactly once each as soon as the listed entries have been dequeued,
    and it stays at once however far the pass is run.  An entry that
    compares equal to a component already in [done] is skipped instead:
    the iteration makes no call for it and leaves [done] as it is. *)
Theorem C4_unequal_instances_each_set_up (w : world) :
  (forall components a b fuel,
      a <> b ->
      In (Obj a) components -> In (Obj b) components ->
      setup (obj w a) <> None -> setup (obj w b) <> None ->
      compares_by_identity w a -> compares_by_identity w b ->
      ~ In PyNone components ->
      (forall c, In (Obj c) components -> setup (obj w c) <> Some SetupRaises) ->
      List.length components <= fuel ->
      count_setup a (log (final_state (setup_components w fuel components))) = 1 /\
      count_setup b (log (final_state (setup_components w fuel components))) = 1) /\
  (forall s c d rest,
      worklist s = Obj c :: rest -> In d (done s) -> py_eq w c d = true ->
      step w s = Continue (skipped w s c rest)).
Proof.
  split; [|apply skipped_when_equal].
  intros components a b fuel _ Ha Hb Hsa Hsb Hia Hib Hnone Hok Hfuel.
  destruct (listed_entries_dequeued w components Hnone Hok) as (s1 & Hloop & Hdone).
  split; eapply reached_counted; try eassumption.
  - apply (py_in_identity w a _ Hia). auto.
  - apply (py_in_identity w b _ Hib). auto.
Qed.

Lemma C4_unequal_instances_each_set_up_witness :
  (count_setup 0 (log (final_state (setup_components single_world 2
                                      [Obj 0; Obj 1]))) = 1 /\
   count_setup 1 (log (final_state (setup_components single_world 2
                                      [Obj 0; Obj 1]))) = 1) /\
  step equal_instances_world
       {| worklist := [Obj 1]; self_components := [Obj 0; Obj 1];
          done := [0]; log := [SetupCall 0] |}
  = Continue {| worklist := []; self_components := [Obj 0; Obj 1];
                done := [0]; log := [SetupCall 0] |}.
Proof.
  split.
  - apply (proj1 (C4_unequal_instances_each_set_up single_world)
             [Obj 0; Obj 1] 0 1 2).
    + discriminate.
    + now left.
    + right. now left.
    + discriminate.
    + discriminate.
    + intros d _. reflexivity.
    + intros d _. reflexivity.
    + intros [H|[H|[]]]; discriminate H.
    + intros c _. discriminate.
    + apply Nat.le_refl.
  - apply (proj2 (C4_unequal_instances_each_set_up equal_instances_world)
             {| worklist := [Obj 1]; self_components := [Obj 0; Obj 1];
                done := [0]; log := [SetupCall 0] |} 1 0 []).
    + reflexivity.
    + now left.
    + reflexivity.
Defined.

(** C9 as stated fails: the setup of object 0 returns objects 1 and 2,
    which compare equal to it; the pass finishes with both in
    [self.components], and the setup of neither has been called. *)
Lemma C9_counterexample :
  setup (obj equal_discovery_world 0) = Some (SetupReturns (Some [Obj 1; Obj 2]))
  /\ setup_components equal_discovery_world 4 [Obj 0]
     = Finished {| worklist := []; self_components := [Obj 0; Obj 1; Obj 2];
                   done := [0]; log := [SetupCall 0] |}
  /\ count_setup 1 [SetupCall 0] = 0
  /\ count_setup 2 [SetupCall 0] = 0.
Proof. repeat split; reflexivity. Qed.

(** C9, amended: take a pass at any of its iterations, with a component
    [a] at the front of the queue that is not in [done] and whose setup
    returns the sequence [[b; c]]; suppose that the entries pending behind
    [a] hold no [None], and that no setup callback of a pending entry, of
    [b] or of [c] raises.  Then [b] and [c] are appended behind every
    pending entry and reach the front of the queue only when [a] and each
    of those have been dequeued; both are in [self.components] however
    far the pass is run from there; and each of them that exposes [setup]
    and compares equal to no other object has had its setup callback
    invoked exactly once when it has been dequeued, and it stays at once.
    (One that compares equal to a component already in [done] is skipped,
    as any such entry is.)  A state of a pass is one in which the setup
    calls logged are those of the components in [done], each once: the
    state a pass starts from is such a state, and every iteration keeps
    it so. *)
Theorem C9_discovered_components_appended (w : world) (s : state)
    (a : nat) (pending : list pyref) (b c fuel : nat) :
  calls_match_done s ->
  worklist s = Obj a :: pending ->
  py_in w a (done s) = false ->
  setup (obj w a) = Some (SetupReturns (Some [Obj b; Obj c])) ->
  let queue := pending ++ elements (iter_elems (obj w a)) in
  ~ In PyNone queue ->
  (forall x, In (Obj x) (queue ++ [Obj b; Obj c]) ->
             setup (obj w x) <> Some SetupRaises) ->
  List.length queue + 3 <= fuel ->
  (exists s2 extra,
      loop w (S (List.length queue)) s = OutOfFuel s2 /\
      worklist s2 = Obj b :: Obj c :: extra) /\
  (In (Obj b) (self_components (final_state (loop w fuel s))) /\
   In (Obj c) (self_components (final_state (loop w fuel s)))) /\
  (forall x, In x [b; c] ->
     setup (obj w x) <> None -> compares_by_identity w x ->
     count_setup x (log (final_state (loop w fuel s))) = 1).
Proof.
  intros Hinv Hwl Hnot Hset queue Hnone Hok Hfuel.
  assert (Hstep : step w s
                  = Continue {| worklist := queue ++ [Obj b; Obj c];
                                self_components :=
                                  (self_components s
                                   ++ elements (iter_elems (obj w a)))
                                  ++ [Obj b; Obj c];
                                done := done s ++ [a];
                                log := match configuration_defaults (obj w a) with
                                       | Some d =>
                                           log s ++ [ReadDict d "component_configs" a]
                                       | None => log s
                                       end ++ [SetupCall a] |}).
  { unfold step. rewrite Hwl, Hnot, Hset. reflexivity. }
  set (s1 := {| worklist := queue ++ [Obj b; Obj c];
                self_components :=
                  (self_components s ++ elements (iter_elems (obj w a)))
                  ++ [Obj b; Obj c];
                done := done s ++ [a];
                log := match configuration_defaults (obj w a) with
                       | Some d => log s ++ [ReadDict d "component_configs" a]
                       | None => log s
                       end ++ [SetupCall a] |}) in *.
  assert (Hreach1 : loop w 1 s = OutOfFuel s1).
  { cbn [loop]. now rewrite Hstep. }
  split; [|split].
  - destruct (loop_dequeues_prefix w queue s1 [Obj b; Obj c] eq_refl Hnone)
      as (s2 & extra & Hloop & Hwl2 & _).
    { intros x Hx. apply Hok. apply in_or_app. now left. }
    exists s2, extra. split; [|exact Hwl2].
    replace (S (List.length queue)) with (1 + List.length queue) by lia.
    now rewrite (loop_resume w 1 _ _ s1 Hreach1).
  - replace fuel with (1 + (fuel - 1)) by lia.
    rewrite (loop_resume w 1 _ _ s1 Hreach1).
    destruct (loop_components_grow w (fuel - 1) s1) as [ext ->].
    cbn [s1 self_components].
    split; apply in_or_app; left; apply in_or_app; right; cbn; auto.
  - intros x Hx Hsetup Hid.
    assert (Hnone' : ~ In PyNone (queue ++ [Obj b; Obj c])).
    { intros Hin. apply in_app_or in Hin. destruct Hin as [Hin|[H|[H|[]]]];
        [contradiction|discriminate H|discriminate H]. }
    destruct (loop_dequeues_prefix w (queue ++ [Obj b; Obj c]) s1 []
                (eq_sym (app_nil_r _)) Hnone' Hok) as (s3 & extra & Hloop & _).
    assert (Hpy : py_in w x (done s3) = true).
    { apply (loop_prefix_pending w (queue ++ [Obj b; Obj c]) s1 s3 [] x Hloop
               (eq_sym (app_nil_r _))); [|assumption].
      apply in_or_app. right. destruct Hx as [<-|[<-|[]]]; cbn; auto. }
    apply (reached_counted_from w s
             (1 + List.length (queue ++ [Obj b; Obj c])) fuel s3 x Hinv).
    + now rewrite (loop_resume w 1 _ _ s1 Hreach1).
    + now apply (py_in_identity w x _ Hid).
    + rewrite length_app. cbn [List.length]. lia.
Qed.

Lemma C9_discovered_components_appended_witness :
  (exists s2 extra,
      loop discovery_world 2 (start [Obj 0; Obj 1]) = OutOfFuel s2 /\
      worklist s2 = Obj 2 :: Obj 3 :: extra) /\
  (In (Obj 2) (self_components (final_state (setup_components discovery_world 4
                                               [Obj 0; Obj 1]))) /\
   In (Obj 3) (self_components (final_state (setup_components discovery_world 4
                                               [Obj 0; Obj 1])))) /\
  (forall x, In x [2; 3] ->
     setup (obj discovery_world x) <> None ->
     compares_by_identity discovery_world x ->
     count_setup x (log (final_state (setup_components discovery_world 4
                                        [Obj 0; Obj 1]))) = 1).
Proof.
  apply (C9_discovered_components_appended discovery_world
           (start [Obj 0; Obj 1]) 0 [Obj 1] 2 3 4).
  - split; [reflexivity|constructor].
  - reflexivity.
  - reflexivity.
  - reflexivity.
  - intros [H|[]]. discriminate H.
  - intros x _. destruct x as [|x]; discriminate.
  - cbn. lia.
Defined.

(** While the entries in front of the queue are dequeued, the defaults
    of a component without [setup] are read once for each of its
    occurrences among them. *)
Lemma prefix_defaults_count (w : world) (c : nat) (d : conf)
    (pre : list pyref) :
  setup (obj w c) = None ->
  configuration_defaults (obj w c) = Some d ->
  compares_by_identity w c ->
  forall s s1 tail,
    done_have_setup w s ->
    loop w (List.length pre) s = OutOfFuel s1 ->
    worklist s = pre ++ tail ->
    count_defaults c (log s1) = count_defaults c (log s) + occurrences c pre.
Proof.
  intros Hset Hdef Hid.
  induction pre as [|x pre IH]; intros s s1 tail Hdone Hloop Hwl;
    cbn [List.length loop] in Hloop.
  - injection Hloop as <-. cbn. lia.
  - destruct (step w s) as [|s0|e s0] eqn:Hstep; try discriminate.
    assert (Hdone0 : done_have_setup w s0).
    { pose proof (loop_done_have_setup w 1 s Hdone) as H1.
      cbn [loop] in H1. now rewrite Hstep in H1. }
    destruct (step_continue_shape w s s0 Hstep)
      as (c0 & rest & added & Hwl0 & Hwl1 & _ & Hcases).
    rewrite Hwl in Hwl0. cbn [app] in Hwl0. injection Hwl0 as -> <-.
    rewrite <- app_assoc in Hwl1.
    rewrite (IH s0 s1 _ Hdone0 Hloop Hwl1).
    assert (Hnot : py_in w c (done s) = false).
    { destruct (py_in w c (done s)) eqn:Hin; [|reflexivity].
      apply (py_in_identity w c _ Hid) in Hin. now apply Hdone in Hin. }
    destruct (Nat.eq_dec c0 c) as [->|Hne].
    + rewrite occurrences_cons_eq.
      destruct Hcases as [(_ & _ & Hin)|[(_ & _ & _ & Hlog)|(_ & _ & Hs & _)]];
        [congruence| |contradiction].
      rewrite Hlog, Hdef, count_defaults_app. unfold count_defaults at 2. cbn.
      rewrite Nat.eqb_refl. cbn. lia.
    + rewrite (occurrences_cons_neq c c0 pre Hne).
      destruct Hcases as [(_ & Hlog & _)|[(_ & _ & _ & Hlog)|(_ & _ & _ & Hlog)]];
        rewrite Hlog, ?count_defaults_app, ?(count_defaults_other w c c0 Hne).
      * lia.
      * lia.
      * change (count_defaults c [SetupCall c0]) with 0. lia.
Qed.

(** C10 as stated fails: object 1 has no [setup], declares defaults and
    occurs twice behind object 0, to which it compares equal; its
    defaults are never read. *)
Lemma C10_counterexample :
  setup (obj equal_defaults_world 1) = None
  /\ configuration_defaults (obj equal_defaults_world 1) = Some clock_defaults
  /\ setup_components equal_defaults_world 4 [Obj 0; Obj 1; Obj 1]
     = Finished {| worklist := [];
                   self_components := [Obj 0; Obj 1; Obj 1];
                   done := [0]; log := [SetupCall 0] |}
  /\ count_defaults 1 [SetupCall 0] = 0.
Proof. repeat split; reflexivity. Qed.

(** C10, amended: a component that does not expose [setup] is never
    appended to [done], however the pass ends.  When it declares
    [configuration_defaults] and compares equal to no other object, its
    defaults are read once for each of its occurrences: if the list the
    pass starts from holds it [k] times (and holds no [None] and no
    component whose setup raises), exactly [k] reads have been made when
    the listed entries have been dequeued, and never fewer however far
    the pass is run.  An occurrence that compares equal to a component
    already in [done] is skipped instead, and no defaults are read for
    it. *)
Theorem C10_defaults_read_per_occurrence (w : world) (c : nat) :
  setup (obj w c) = None ->
  (forall fuel components,
      ~ In c (done (final_state (setup_components w fuel components)))) /\
  (forall d components fuel,
      configuration_defaults (obj w c) = Some d ->
      compares_by_identity w c ->
      ~ In PyNone components ->
      (forall x, In (Obj x) components -> setup (obj w x) <> Some SetupRaises) ->
      List.length components <= fuel ->
      (exists s1,
          loop w (List.length components) (start components) = OutOfFuel s1 /\
          count_defaults c (log s1) = occurrences c components) /\
      occurrences c components
      <= count_defaults c (log (final_state (setup_components w fuel components)))) /\
  (forall s d rest,
      worklist s = Obj c :: rest -> In d (done s) -> py_eq w c d = true ->
      step w s = Continue (skipped w s c rest)).
Proof.
  intros Hset.
  assert (Hstart : forall cs, done_have_setup w (start cs)) by (intros cs d []).
  split; [|split].
  - intros fuel components Hin.
    apply (loop_done_have_setup w fuel (start components) (Hstart components)) in Hin.
    contradiction.
  - intros d components fuel Hdef Hid Hnone Hok Hfuel.
    destruct (loop_dequeues_prefix w components (start components) []
                (eq_sym (app_nil_r _)) Hnone Hok) as (s1 & extra & Hloop & _).
    pose proof (prefix_defaults_count w c d components Hset Hdef Hid
                  (start components) s1 [] (Hstart components) Hloop
                  (eq_sym (app_nil_r _))) as Hcount.
    cbn [start log] in Hcount. change (count_defaults c []) with 0 in Hcount.
    cbn [Nat.add] in Hcount.
    split; [exists s1; auto|].
    unfold setup_components.
    replace fuel with (List.length components + (fuel - List.length components))
      by lia.
    rewrite (loop_resume w _ _ _ s1 Hloop).
    destruct (loop_log_grows w (fuel - List.length components) s1) as [more ->].
    rewrite count_defaults_app, Hcount. lia.
  - intros s d rest. apply skipped_when_equal.
Qed.

Lemma C10_defaults_read_per_occurrence_witness :
  (exists s1,
      loop defaults_only_world 4 (start [Obj 0; Obj 1; Obj 0; Obj 0])
      = OutOfFuel s1 /\
      count_defaults 0 (log s1) = occurrences 0 [Obj 0; Obj 1; Obj 0; Obj 0]) /\
  occurrences 0 [Obj 0; Obj 1; Obj 0; Obj 0]
  <= count_defaults 0
       (log (final_state (setup_components defaults_only_world 5
                            [Obj 0; Obj 1; Obj 0; Obj 0]))).
Proof.
  apply (proj1 (proj2 (C10_defaults_read_per_occurrence defaults_only_world 0
                         eq_refl))
           clock_defaults [Obj 0; Obj 1; Obj 0; Obj 0] 5).
  - reflexivity.
  - intros d _. reflexivity.
  - intros [H|[H|[H|[H|[]]]]]; discriminate H.
  - intros x _. destruct x as [|x]; discriminate.
  - cbn. lia.
Defined.

(** * Properties of the extractor *)

Import Extractor.

Example grouping_flatten :
  _extract_component_list
    (NList [NDict [("a", NList [NStr "b.c"; NStr "b.d"])]; NStr "e.f"])
  = inr ["a.b.c"; "a.b.d"; "e.f"].
Proof. reflexivity. Qed.

(** The first exception of a loop is the exception of one of its elements,
    and a loop over elements one of which raises does raise. *)
Lemma collect_error_source {A B : Type} (f : A -> result (list B))
    (xs : list A) (e : exn) :
  collect f xs = inl e -> exists x, In x xs /\ f x = inl e.
Proof.
  induction xs as [|x xs IH]; cbn; [discriminate|].
  destruct (f x) as [e'|ys] eqn:Hx.
  - intros H. injection H as <-. exists x. auto.
  - destruct (collect f xs) as [e'|zs]; [|discriminate].
    intros H. injection H as <-. destruct (IH eq_refl) as [y [Hy Hfy]].
    exists y. auto.
Qed.

Lemma collect_raises {A B : Type} (f : A -> result (list B))
    (xs : list A) (x : A) (e : exn) :
  In x xs -> f x = inl e -> exists e', collect f xs = inl e'.
Proof.
  induction xs as [|y xs IH]; intros Hin Hx; [destruct Hin|]. cbn.
  destruct (f y) as [e'|ys] eqn:Hy; [eauto|].
  destruct Hin as [->|Hin]; [congruence|].
  destruct (IH Hin Hx) as [e' ->]. eauto.
Qed.

(** Induction on configuration nodes that reaches the elements of a list
    and the values of a mapping. *)
Lemma node_nested_ind (P : node -> Prop) :
  (forall s, P (NStr s)) -> (forall z, P (NInt z)) -> P NNone ->
  (forall items, Forall P items -> P (NList items)) ->
  (forall items, Forall (fun item => P (snd item)) items -> P (NDict items)) ->
  forall n, P n.
Proof.
  intros HStr HInt HNone HList HDict.
  fix IH 1. intros [s|z| |items|items].
  - apply HStr.
  - apply HInt.
  - apply HNone.
  - apply HList. induction items as [|x items IHitems]; constructor.
    + apply IH.
    + exact IHitems.
  - apply HDict. induction items as [|[k x] items IHitems]; constructor.
    + apply IH.
    + exact IHitems.
Qed.

(** The only exception the extractor raises is the interpreter's
    TypeError. *)
Lemma process_level_error (level : node) :
  (forall prefix e, _process_level level prefix = inl e -> e = TypeError) /\
  match level with
  | NDict sub_items =>
      forall prefix e, descend prefix sub_items = inl e -> e = TypeError
  | _ => True
  end.
Proof.
  induction level as [s|z| |items IH|items IH] using node_nested_ind.
  - split; [intros prefix e H; discriminate|exact I].
  - split; [intros prefix e H; cbn in H; congruence|exact I].
  - split; [intros prefix e H; cbn in H; congruence|exact I].
  - split; [|exact I]. intros prefix e H. cbn [_process_level] in H.
    apply collect_error_source in H. destruct H as [child [Hin Hchild]].
    rewrite Forall_forall in IH. specialize (IH child Hin).
    destruct child as [s|z| |sub|sub_items]; try congruence.
    destruct IH as [_ IH]. exact (IH prefix e Hchild).
  - split; [intros prefix e H; discriminate|].
    intros prefix e H. unfold descend in H.
    apply collect_error_source in H. destruct H as [[k sub] [Hin Hsub]].
    rewrite Forall_forall in IH. destruct (IH (k, sub) Hin) as [IHsub _].
    exact (IHsub _ e Hsub).
Qed.

Lemma raises_type_error (level : node) :
  raises level -> forall prefix, _process_level level prefix = inl TypeError.
Proof.
  induction 1 as [z| |items child Hin Hbad
                  |items sub_items k sub Hin Hitem Hsub IH]; intros prefix.
  - reflexivity.
  - reflexivity.
  - assert (Hraise : exists e, _process_level (NList items) prefix = inl e).
    { cbn [_process_level]. eapply collect_raises; [exact Hin|].
      destruct Hbad; reflexivity. }
    destruct Hraise as [e He]. rewrite He.
    now rewrite (proj1 (process_level_error (NList items)) prefix e He).
  - assert (Hraise : exists e, _process_level (NList items) prefix = inl e).
    { cbn [_process_level].
      destruct (collect_raises
                  (fun item : string * node =>
                     let '(path_suffix, sub_level) := item in
                     _process_level sub_level (prefix ++ [path_suffix]))
                  sub_items (k, sub) TypeError Hitem (IH _)) as [e' He'].
      eapply collect_raises; [exact Hin|]. cbn. exact He'. }
    destruct Hraise as [e He]. rewrite He.
    now rewrite (proj1 (process_level_error (NList items)) prefix e He).
Qed.

(** C5 as stated fails: a mapping with two keys is flattened, key by key,
    and no error is raised. *)
Lemma C5_counterexample :
  _extract_component_list
    (NList [NDict [("a", NList [NStr "x"]); ("b", NList [NStr "y"])]])
  = inr ["a.x"; "b.y"].
Proof. reflexivity. Qed.

(** ** Further properties of the extractor *)

Lemma process_level_raises (level : node) :
  (forall prefix e, _process_level level prefix = inl e -> raises level) /\
  match level with
  | NDict sub_items =>
      forall prefix e, descend prefix sub_items = inl e ->
        exists k sub, In (k, sub) sub_items /\ raises sub
  | _ => True
  end.
Proof.
  induction level as [s|z| |items IH|items IH] using node_nested_ind.
  - split; [intros prefix e H; discriminate|exact I].
  - split; [intros; constructor|exact I].
  - split; [intros; constructor|exact I].
  - split; [|exact I]. intros prefix e H. cbn [_process_level] in H.
    apply collect_error_source in H. destruct H as [child [Hin Hchild]].
    rewrite Forall_forall in IH. specialize (IH child Hin).
    destruct child as [s|z| |sub|sub_items].
    + discriminate.
    + eapply raises_leaf; [exact Hin|constructor].
    + eapply raises_leaf; [exact Hin|constructor].
    + eapply raises_leaf; [exact Hin|constructor].
    + destruct IH as [_ IH]. destruct (IH prefix e Hchild) as (k & sub & Hk & Hr).
      eapply raises_below; eassumption.
  - split; [intros prefix e H; discriminate|].
    intros prefix e H. unfold descend in H.
    apply collect_error_source in H. destruct H as [[k sub] [Hin Hsub]].
    rewrite Forall_forall in IH. destruct (IH (k, sub) Hin) as [IHsub _].
    exists k, sub. split; [assumption|]. exact (IHsub _ e Hsub).
Qed.

(** X7: extraction raises exactly on the groupings that hold, at some
    depth reached through mappings, a level that cannot be iterated (a
    number or [None] where a sequence is expected) or a list element that
    is a number, [None] or a nested list.  Every other input is accepted,
    whatever the prefix: strings, mappings with any number of keys, empty
    lists and empty mappings never raise. *)
Theorem X7_extraction_raises_iff (level : node) (prefix : list string) :
  (exists e, _process_level level prefix = inl e) <-> raises level.
Proof.
  split.
  - intros [e He]. exact (proj1 (process_level_raises level) prefix e He).
  - intros H. exists TypeError. now apply raises_type_error.
Qed.

Lemma X7_extraction_raises_iff_witness : raises bad_leaf_config.
Proof.
  apply (proj1 (X7_extraction_raises_iff bad_leaf_config [])).
  exists TypeError. reflexivity.
Defined.

(** The names of a mapping all of whose sub-levels are accepted. *)
Lemma descend_accepted (prefix : list string)
    (sub_items : list (string * node)) (namess : list (list string)) :
  Forall2 (fun item names =>
             _process_level (snd item) (prefix ++ [fst item]) = inr names)
          sub_items namess ->
  descend prefix sub_items = inr (List.concat namess).
Proof.
  unfold descend. induction 1 as [|[k sub] names items namess Hitem _ IH];
    [reflexivity|]. cbn [collect List.concat]. cbn [fst snd] in Hitem.
  now rewrite Hitem, IH.
Qed.

(** C5, amended: extraction raises exactly when its traversal reaches a
    level that cannot be iterated (a number or [None] where a sequence is
    expected) or a list element that is a number, [None] or a nested
    list; the traversal goes from a list into the values of the list's
    mapping elements, and nowhere else.  Such an entry is never skipped,
    but the exception is the TypeError of the iteration or of the string
    join, never a configuration error naming the entry.  A mapping with
    more than one key is not an error: whatever the number of its keys,
    the names of its sub-levels are concatenated in the mapping's order,
    each sub-level read under its own key.  A mapping that stands where a
    list is expected contributes its keys and nothing else: what its
    values hold is ignored, malformed or not. *)
Theorem C5_bad_leaf_raises_mapping_flattened (level : node)
    (prefix : list string) :
  (forall e, _process_level level prefix = inl e <->
             raises level /\ e = TypeError) /\
  (forall e, _process_level level prefix = inl e -> is_config_error e = false) /\
  (forall sub_items rest namess,
      Forall2 (fun item names =>
                 _process_level (snd item) (prefix ++ [fst item]) = inr names)
              sub_items namess ->
      _process_level (NList (NDict sub_items :: rest)) prefix
      = then_extend (inr (List.concat namess)) (_process_level (NList rest) prefix)) /\
  (forall key items rest,
      _process_level (NList (NDict [(key, NDict items)] :: rest)) prefix
      = then_extend (inr (map (fun item => join "." (prefix ++ [key; fst item]))
                              items))
                    (_process_level (NList rest) prefix)).
Proof.
  assert (Hiff : forall e, _process_level level prefix = inl e <->
                           raises level /\ e = TypeError).
  { intros e. split.
    - intros H. split.
      + exact (proj1 (process_level_raises level) prefix e H).
      + exact (proj1 (process_level_error level) prefix e H).
    - intros [H ->]. now apply raises_type_error. }
  split; [exact Hiff|]. split; [|split].
  - intros e H. apply Hiff in H. destruct H as [_ ->]. reflexivity.
  - intros sub_items rest namess H.
    pose proof (descend_accepted prefix sub_items namess H) as Hd.
    unfold descend in Hd. cbn [_process_level collect]. rewrite Hd.
    reflexivity.
  - intros key items rest. cbn [_process_level collect]. rewrite app_nil_r.
    unfold then_extend.
    replace (map (fun item : string * node =>
                    join "." ((prefix ++ [key]) ++ [fst item])) items)
      with (map (fun item : string * node =>
                   join "." (prefix ++ [key; fst item])) items).
    + reflexivity.
    + apply map_ext. intros item. now rewrite <- app_assoc.
Qed.

Lemma C5_bad_leaf_raises_mapping_flattened_witness :
  raises bad_leaf_config /\ TypeError = TypeError.
Proof.
  apply (proj1 (proj1 (C5_bad_leaf_raises_mapping_flattened bad_leaf_config [])
                  TypeError)).
  reflexivity.
Defined.

Lemma join_cons (sep x : string) (l : list string) :
  l <> [] -> join sep (x :: l) = (x ++ sep ++ join sep l)%string.
Proof. destruct l; [congruence|reflexivity]. Qed.

Lemma join_nested (sep : string) (p parts : list string) :
  parts <> [] -> join sep (p ++ parts) = join sep (p ++ [join sep parts]).
Proof.
  intros Hne. induction p as [|x p IH]; [reflexivity|].
  cbn [app]. rewrite !join_cons.
  - now rewrite IH.
  - destruct p; discriminate.
  - destruct p; [assumption|discriminate].
Qed.

Lemma join_prefix_leaf (p q : list string) (s : string) :
  join "." ((p ++ q) ++ [s]) = join "." (p ++ [join "." (q ++ [s])]).
Proof.
  rewrite <- app_assoc. apply join_nested. destruct q; discriminate.
Qed.

Lemma collect_prefixed {A : Type} (p : list string)
    (f g : A -> result (list string)) (xs : list A) :
  (forall x, In x xs -> f x = prefixed p (g x)) ->
  collect f xs = prefixed p (collect g xs).
Proof.
  induction xs as [|x xs IH]; intros H; [reflexivity|]. cbn [collect].
  rewrite (H x (or_introl eq_refl)).
  destruct (g x) as [e|ys]; [reflexivity|]. cbn [prefixed].
  rewrite IH by (intros y Hy; apply H; now right).
  destruct (collect g xs) as [e|zs]; [reflexivity|]. cbn [prefixed].
  now rewrite map_app.
Qed.

Lemma process_level_prefixed (level : node) :
  (forall p q, _process_level level (p ++ q) = prefixed p (_process_level level q)) /\
  match level with
  | NDict sub_items =>
      forall p q, descend (p ++ q) sub_items = prefixed p (descend q sub_items)
  | _ => True
  end.
Proof.
  induction level as [s|z| |items IH|items IH] using node_nested_ind.
  - split; [|exact I]. intros p q. cbn [_process_level prefixed].
    rewrite map_map. f_equal. apply map_ext. intros ch. apply join_prefix_leaf.
  - split; [reflexivity|exact I].
  - split; [reflexivity|exact I].
  - split; [|exact I]. intros p q. cbn [_process_level].
    apply collect_prefixed. intros child Hin.
    rewrite Forall_forall in IH. specialize (IH child Hin).
    destruct child as [s|z| |sub|sub_items]; try reflexivity.
    + cbn [prefixed map]. now rewrite join_prefix_leaf.
    + destruct IH as [_ IH]. exact (IH p q).
  - split.
    + intros p q. cbn [_process_level prefixed].
      rewrite map_map. f_equal. apply map_ext. intros item. apply join_prefix_leaf.
    + intros p q. unfold descend. apply collect_prefixed. intros [k sub] Hin.
      rewrite Forall_forall in IH. destruct (IH (k, sub) Hin) as [IHsub _].
      cbn [snd] in IHsub. rewrite <- app_assoc. apply IHsub.
Qed.

(** X8: grouping under a prefix is prefixing.  Extracting a level under
    the prefix chain [p ++ q] gives the names extracted under [q], each
    joined behind [p] with a dot, and raises when the extraction under [q]
    does; so the names of a group are those of its sub-level, read on its
    own, behind the group's key. *)
Theorem X8_prefix_distributes (level : node) (p q : list string) :
  _process_level level (p ++ q) = prefixed p (_process_level level q)
  /\ _process_level level p = prefixed p (_extract_component_list level).
Proof.
  split; [apply process_level_prefixed|].
  unfold _extract_component_list.
  rewrite <- (app_nil_r p) at 1. apply process_level_prefixed.
Qed.

Lemma collect_app {A B : Type} (f : A -> result (list B)) (xs ys : list A) :
  collect f (xs ++ ys)
  = match collect f xs with
    | inl e => inl e
    | inr a =>
        match collect f ys with
        | inl e => inl e
        | inr b => inr (a ++ b)
        end
    end.
Proof.
  induction xs as [|x xs IH]; cbn [app collect].
  - destruct (collect f ys); reflexivity.
  - destruct (f x) as [e|a]; [reflexivity|]. rewrite IH.
    destruct (collect f xs) as [e|b]; [reflexivity|].
    destruct (collect f ys) as [e|c]; [reflexivity|].
    now rewrite app_assoc.
Qed.

(** X9: extraction is a homomorphism on sequences.  The names of a
    concatenated list are the names of its first part followed by those
    of its second; the first exception met, left to right, is the one
    raised.  No name is dropped, merged or reordered. *)
Theorem X9_extraction_of_concatenation (xs ys : list node)
    (prefix : list string) :
  _process_level (NList (xs ++ ys)) prefix
  = then_extend (_process_level (NList xs) prefix)
                (_process_level (NList ys) prefix).
Proof. cbn [_process_level]. apply collect_app. Qed.

(** X10: a flat list of names is returned as it is, in order and with
    its duplicates; under a prefix chain every name is joined behind the
    keys of the chain. *)
Theorem X10_flat_list_is_kept (names prefix : list string) :
  _extract_component_list (NList (map NStr names)) = inr names
  /\ _process_level (NList (map NStr names)) prefix
     = inr (map (fun n => join "." (prefix ++ [n])) names).
Proof.
  assert (H : forall p, _process_level (NList (map NStr names)) p
                        = inr (map (fun n => join "." (p ++ [n])) names)).
  { intros p. cbn [_process_level].
    induction names as [|n names IH]; [reflexivity|].
    cbn [map collect]. rewrite IH. reflexivity. }
  split; [|apply H].
  unfold _extract_component_list. rewrite H. f_equal.
  rewrite <- (map_id names) at 2. apply map_ext. reflexivity.
Qed.

(** * Properties of the parser and the loader *)

Import Loader.

Example rpartition_dotted : rpartition "pkg.sub.ClassName" = ("pkg.sub", "ClassName").
Proof. reflexivity. Qed.

Example rpartition_plain : rpartition "ClassName" = ("", "ClassName").
Proof. reflexivity. Qed.

Example call_descriptor_literals :
  fst (_parse_component sample_host "pkg.Thing(1, 'x', True)" no_constructors
         sample_effects)
  = inr ("pkg.Thing", [VInt 1; VStr "x"; VBool true]).
Proof. reflexivity. Qed.

Example nested_constructor :
  fst (_parse_component sample_host "pkg.Thing(data('path/to/file'))"
         data_constructors sample_effects)
  = inr ("pkg.Thing", [VInt 42]).
Proof. reflexivity. Qed.

Lemma bind_inv {A B : Type} (m : M A) (k : A -> M B) (st st' : effects)
    (r : result B) :
  bind m k st = (r, st') ->
  (exists e, m st = (inl e, st') /\ r = inl e) \/
  (exists a st1, m st = (inr a, st1) /\ k a st1 = (r, st')).
Proof.
  unfold bind. destruct (m st) as [[e|a] st1]; intros H.
  - left. injection H as <- <-. eauto.
  - right. eauto.
Qed.

(** An argument that is neither a literal nor a call is passed over. *)
Lemma transform_arg_dropped (definition : string) (constructors : registry)
    (arg : expr) (st : effects) :
  _is_literal arg = false ->
  (forall func args, arg <> Call func args) ->
  transform_arg definition constructors arg st = (inr [], st).
Proof.
  unfold _is_literal, transform_arg. intros Hlit Hcall.
  destruct (literal_eval arg); [discriminate|].
  destruct arg as [n|s|v|id|v attr|func args|elts|elts|v i]; try reflexivity.
  now destruct (Hcall func args).
Qed.

(** C2, at the failing inputs: the descriptor [pkg.Thing(foo)], whose
    argument is a bare name, parses to the path with an empty argument
    list, and [pkg.Thing(1, foo, 2)] parses to the arguments [1] and [2];
    no ParsingError is raised and nothing is logged. *)
Theorem C2_name_argument_dropped :
  _is_literal (Name "foo") = false
  /\ _parse_component sample_host "pkg.Thing(foo)" no_constructors sample_effects
     = (inr ("pkg.Thing", []), sample_effects)
  /\ _parse_component sample_host "pkg.Thing(1, foo, 2)" data_constructors
                      sample_effects
     = (inr ("pkg.Thing", [VInt 1; VInt 2]), sample_effects).
Proof. repeat split; reflexivity. Qed.

Lemma transform_args_app (definition : string) (constructors : registry)
    (pre post : list expr) :
  forall acc st,
    transform_args definition constructors (pre ++ post) acc st
    = bind (transform_args definition constructors pre acc)
           (fun vals => transform_args definition constructors post vals) st.
Proof.
  induction pre as [|arg pre IH]; intros acc st; [reflexivity|].
  cbn [app transform_args]. unfold bind.
  destruct (transform_arg definition constructors arg st) as [[e|new] st1];
    [reflexivity|].
  rewrite IH. reflexivity.
Qed.

(** The loop only appends to [transformed_args]. *)
Lemma transform_args_extends (definition : string) (constructors : registry)
    (args : list expr) :
  forall acc st all st',
    transform_args definition constructors args acc st = (inr all, st') ->
    exists rest, all = acc ++ rest.
Proof.
  induction args as [|arg args IH]; intros acc st all st' H; cbn in H.
  - injection H as <- _. exists []. now rewrite app_nil_r.
  - apply bind_inv in H.
    destruct H as [(e & _ & He)|(new & st1 & _ & H)]; [discriminate|].
    destruct (IH _ _ _ _ H) as [rest ->]. exists (new ++ rest).
    now rewrite app_assoc.
Qed.

(** C8: in a call-form descriptor whose earlier arguments resolve, take
    an argument of the form [ctor('s')].  If [ctor] is not in the
    registry, parsing raises the ParsingError carrying the descriptor, at
    that argument.  If it is, processing the argument calls the
    registered callable exactly once, on [s], and appends what it
    returns to the resolved arguments, right behind those of the earlier
    arguments; parsing then succeeds whenever the later arguments
    resolve. *)
Theorem C8_nested_constructor_call (h : host) (definition : string)
    (constructors : registry) (st st1 : effects) (body : list stmt)
    (func : expr) (path : string) (pre post : list expr) (ctor s : string)
    (vals : list value) :
  ast_parse h definition = inr body ->
  _extract_component_call body
  = inr (func, pre ++ Call (Name ctor) [Str s] :: post) ->
  _component_ast_to_path func = inr path ->
  transform_args definition constructors pre [] st = (inr vals, st1) ->
  (constructors (KName ctor) = None ->
   _parse_component h definition constructors st
   = (inl (ParsingError ("Invalid syntax: " ++ definition)), st1)) /\
  (forall f, constructors (KName ctor) = Some f ->
     transform_arg definition constructors (Call (Name ctor) [Str s]) st1
     = (inr [f (VStr s)], after_constructor_call st1 ctor s) /\
     (forall all st2,
         transform_args definition constructors post (vals ++ [f (VStr s)])
                        (after_constructor_call st1 ctor s)
         = (inr all, st2) ->
         _parse_component h definition constructors st = (inr (path, all), st2) /\
         exists rest, all = vals ++ f (VStr s) :: rest)).
Proof.
  intros Hparse Hcall Hpath Hpre.
  assert (Hrun : _parse_component h definition constructors st
                 = bind (transform_args definition constructors
                           (Call (Name ctor) [Str s] :: post) vals)
                        (fun all => ret (path, all)) st1).
  { unfold _parse_component, lift, bind. rewrite Hparse, Hcall. cbn [fst snd].
    rewrite Hpath, transform_args_app. unfold bind. rewrite Hpre. reflexivity. }
  split.
  - intros Hnone. rewrite Hrun. cbn [transform_args].
    unfold bind, transform_arg. cbn [literal_eval]. rewrite Hnone. reflexivity.
  - intros f Hsome.
    assert (Harg : transform_arg definition constructors
                     (Call (Name ctor) [Str s]) st1
                   = (inr [f (VStr s)], after_constructor_call st1 ctor s)).
    { unfold transform_arg. cbn [literal_eval]. rewrite Hsome. reflexivity. }
    split; [exact Harg|]. intros all st2 Hpost. split.
    + rewrite Hrun. cbn [transform_args]. unfold bind.
      rewrite Harg, Hpost. reflexivity.
    + destruct (transform_args_extends _ _ _ _ _ _ _ Hpost) as [rest ->].
      exists rest. now rewrite <- app_assoc.
Qed.

Lemma C8_nested_constructor_call_witness :
  _parse_component sample_host "pkg.Thing(data('path/to/file'))"
                   no_constructors sample_effects
  = (inl (ParsingError "Invalid syntax: pkg.Thing(data('path/to/file'))"),
     sample_effects)
  /\ _parse_component sample_host "pkg.Thing(data('path/to/file'))"
                      data_constructors sample_effects
     = (inr ("pkg.Thing", [VInt 42]),
        after_constructor_call sample_effects "data" "path/to/file").
Proof.
  split.
  - refine (proj1 (C8_nested_constructor_call sample_host
                     "pkg.Thing(data('path/to/file'))" no_constructors
                     sample_effects sample_effects
                     [Expr (Call thing [Call (Name "data") [Str "path/to/file"]])]
                     thing "pkg.Thing" [] [] "data" "path/to/file" []
                     eq_refl eq_refl eq_refl eq_refl) eq_refl).
  - refine (proj1 (proj2 (proj2 (C8_nested_constructor_call sample_host
                     "pkg.Thing(data('path/to/file'))" data_constructors
                     sample_effects sample_effects
                     [Expr (Call thing [Call (Name "data") [Str "path/to/file"]])]
                     thing "pkg.Thing" [] [] "data" "path/to/file" []
                     eq_refl eq_refl eq_refl eq_refl)
                   (fun _ => VInt 42) eq_refl) _ _ eq_refl)).
Defined.

(** ** Loading: no component is called while the list is prepared *)

Lemma quiet_step_refl (st : effects) : quiet_step st st [].
Proof.
  split; [now rewrite app_nil_r|]. split; [intros e []|auto].
Qed.

Lemma quiet_step_trans (st st1 st2 : effects) (e1 e2 : list event) :
  quiet_step st st1 e1 -> quiet_step st1 st2 e2 -> quiet_step st st2 (e1 ++ e2).
Proof.
  intros (Ht1 & Hq1 & Ha1) (Ht2 & Hq2 & Ha2). split; [|split].
  - now rewrite Ht2, Ht1, app_assoc.
  - intros e Hin. apply in_app_or in Hin. destruct Hin; auto.
  - auto.
Qed.

Lemma quiet_ret {A : Type} (a : A) : quiet (ret a).
Proof.
  intros st r st' H. injection H as _ <-. exists []. apply quiet_step_refl.
Qed.

Lemma quiet_raise {A : Type} (e : exn) : quiet (@raise A e).
Proof.
  intros st r st' H. injection H as _ <-. exists []. apply quiet_step_refl.
Qed.

Lemma quiet_lift {A : Type} (x : result A) : quiet (lift x).
Proof.
  intros st r st' H. injection H as _ <-. exists []. apply quiet_step_refl.
Qed.

Lemma quiet_getmembers (c : nat) : quiet (getmembers c).
Proof.
  intros st r st' H. injection H as _ <-. exists []. apply quiet_step_refl.
Qed.

Lemma quiet_emit (e : event) : is_invoke e = false -> quiet (emit e).
Proof.
  intros He st r st' H. injection H as _ <-. exists [e].
  split; [reflexivity|]. split; [|auto].
  intros e' [<-|[]]. assumption.
Qed.

Lemma lookup_update (attr attr' : string) (v : value) (l : list (string * value)) :
  lookup attr' l <> None -> lookup attr' (update attr v l) <> None.
Proof.
  induction l as [|[a x] l IH]; cbn; [congruence|].
  destruct (String.eqb_spec a attr) as [->|Hne]; cbn.
  - destruct (String.eqb attr attr'); [discriminate|auto].
  - destruct (String.eqb a attr'); [discriminate|auto].
Qed.

Lemma quiet_setattr (c : nat) (attr : string) (v : value) :
  quiet (setattr c attr v).
Proof.
  intros st r st' H. injection H as _ <-. exists [SetAttr c attr v].
  split; [reflexivity|]. split.
  - intros e' [<-|[]]. reflexivity.
  - intros c' attr' Hc. unfold has_attr in *. cbn [members].
    destruct (Nat.eqb c' c); [now apply lookup_update|assumption].
Qed.

Lemma quiet_bind {A B : Type} (m : M A) (k : A -> M B) :
  quiet m -> (forall a, quiet (k a)) -> quiet (bind m k).
Proof.
  intros Hm Hk st r st' H. apply bind_inv in H.
  destruct H as [(e & H & _)|(a & st1 & H & Hk')].
  - exact (Hm _ _ _ H).
  - destruct (Hm _ _ _ H) as [e1 H1]. destruct (Hk a _ _ _ Hk') as [e2 H2].
    exists (e1 ++ e2). eapply quiet_step_trans; eassumption.
Qed.

Create HintDb quiet.
#[local] Hint Resolve quiet_ret quiet_raise quiet_lift quiet_getmembers
  quiet_setattr : quiet.

Lemma quiet_transform_arg (definition : string) (constructors : registry)
    (arg : expr) :
  quiet (transform_arg definition constructors arg).
Proof.
  unfold transform_arg. destruct (literal_eval arg); auto with quiet.
  destruct arg as [n|s|v|id|v attr|func args|elts|elts|v i]; auto with quiet.
  destruct func as [n|s|v|id|v attr|func args'|elts|elts|v i]; auto with quiet.
  destruct (constructors (KName id)) as [f|]; auto with quiet.
  destruct args as [|[n|s|v|id'|v attr|func args'|elts|elts|v i] [|a args]];
    auto with quiet.
  apply quiet_bind; [now apply quiet_emit|auto with quiet].
Qed.

Lemma quiet_transform_args (definition : string) (constructors : registry)
    (args : list expr) :
  forall acc, quiet (transform_args definition constructors args acc).
Proof.
  induction args as [|arg args IH]; intros acc; cbn [transform_args].
  - auto with quiet.
  - apply quiet_bind; [apply quiet_transform_arg|auto].
Qed.

Lemma quiet_parse_component (h : host) (definition : string)
    (constructors : registry) :
  quiet (_parse_component h definition constructors).
Proof.
  unfold _parse_component.
  repeat (apply quiet_bind; [auto using quiet_transform_args with quiet|intros ?]).
  auto with quiet.
Qed.

Lemma quiet_rebind (constructors : registry) (c : nat)
    (ms : list (string * value)) :
  quiet (rebind constructors c ms).
Proof.
  induction ms as [|[attr val] ms IH]; cbn [rebind]; [auto with quiet|].
  destruct (constructors (KClass (class_of val))) as [f|]; [|assumption].
  apply quiet_bind; [now apply quiet_emit|intros _].
  apply quiet_bind; [auto with quiet|intros _; assumption].
Qed.

Lemma quiet_read_defaults (c : nat) : quiet (read_defaults c).
Proof.
  unfold read_defaults. apply quiet_bind; [auto with quiet|intros ms].
  destruct (lookup "configuration_defaults" ms); [|auto with quiet].
  now apply quiet_emit.
Qed.

Lemma quiet_parsed (h : host) (constructors : registry) (description : string) :
  quiet (if has_paren description
         then p <- _parse_component h description constructors ;;
              ret (fst p, Some (snd p))
         else ret (description, None)).
Proof.
  destruct (has_paren description); [|auto with quiet].
  apply quiet_bind; [apply quiet_parse_component|auto with quiet].
Qed.

Lemma quiet_prep_component (h : host) (constructors : registry) (i : item) :
  quiet (prep_component h constructors i).
Proof.
  destruct i as [description|o]; cbn [prep_component]; [|auto with quiet].
  apply quiet_bind; [apply quiet_parsed|intros parsed].
  apply quiet_bind; [auto with quiet|intros c].
  apply quiet_bind; [auto with quiet|intros ms].
  apply quiet_bind; [apply quiet_rebind|intros _].
  apply quiet_bind; [apply quiet_read_defaults|auto with quiet].
Qed.

Lemma quiet_prep_loop (h : host) (constructors : registry)
    (component_list : list item) :
  forall acc, quiet (prep_loop h constructors component_list acc).
Proof.
  induction component_list as [|i l IH]; intros acc; cbn [prep_loop].
  - auto with quiet.
  - apply quiet_bind; [apply quiet_prep_component|auto].
Qed.

(** ** Further properties of the parser *)

Lemma dotted_snoc (first : string) (rest : list string) (attr : string) :
  dotted first (rest ++ [attr]) = Attribute (dotted first rest) attr.
Proof. unfold dotted. now rewrite fold_left_app. Qed.

Lemma attribute_path_dotted (first : string) (rest : list string) :
  forall acc, attribute_path (dotted first rest) acc = inr (first :: rest ++ acc).
Proof.
  induction rest as [|attr rest IH] using rev_ind; intros acc; [reflexivity|].
  rewrite dotted_snoc. cbn [attribute_path]. rewrite IH, <- app_assoc.
  reflexivity.
Qed.

Lemma attribute_path_inv (e : expr) :
  forall acc path,
    attribute_path e acc = inr path ->
    exists first rest, e = dotted first rest /\ path = first :: rest ++ acc.
Proof.
  induction e as [n|s|v|id|v IH attr|func args|elts|elts|v IHv i IHi];
    intros acc path H; cbn [attribute_path] in H; try discriminate.
  - injection H as <-. exists id, []. split; reflexivity.
  - destruct (IH _ _ H) as (first & rest & -> & ->).
    exists first, (rest ++ [attr]). rewrite dotted_snoc, <- app_assoc.
    split; reflexivity.
Qed.

Lemma component_path_error (component : expr) (e : exn) :
  _component_ast_to_path component = inl e -> e = AttributeError.
Proof.
  intros H. unfold _component_ast_to_path in H.
  destruct component as [n|s|v|id|v attr|func args|elts|elts|v i];
    cbn [attribute_path] in H; try congruence.
  destruct (attribute_path v [attr]) as [e'|parts] eqn:Hparts; [|discriminate].
  injection H as <-. clear - Hparts.
  revert Hparts. generalize [attr]. induction v; intros acc H;
    cbn [attribute_path] in H; try congruence; eauto.
Qed.

(** X12: [_component_ast_to_path] inverts the parser on dotted names.
    The tree of [first.a.b...] is turned back into that very string, and
    only such trees are accepted: when a path is returned the component
    expression was a dotted name and the path is its spelling; any other
    expression (a call, a subscript, a literal at the root of the
    attribute chain) ends in AttributeError, never in a ParsingError. *)
Theorem X12_component_path_round_trip (component : expr) :
  (forall first rest,
      _component_ast_to_path (dotted first rest)
      = inr (join "." (first :: rest))) /\
  (forall path,
      _component_ast_to_path component = inr path ->
      exists first rest,
        component = dotted first rest /\ path = join "." (first :: rest)) /\
  (forall e, _component_ast_to_path component = inl e -> e = AttributeError).
Proof.
  split; [|split].
  - intros first rest. unfold _component_ast_to_path.
    rewrite attribute_path_dotted, app_nil_r.
    destruct rest as [|attr rest] using rev_ind; [reflexivity|].
    rewrite dotted_snoc. reflexivity.
  - intros path H. unfold _component_ast_to_path in H.
    destruct (attribute_path component []) as [e|parts] eqn:Hparts.
    + destruct component; discriminate.
    + destruct (attribute_path_inv component [] parts Hparts)
        as (first & rest & -> & ->).
      exists first, rest. split; [reflexivity|]. rewrite app_nil_r in *.
      destruct rest as [|attr rest] using rev_ind.
      * cbn in H. now injection H as <-.
      * rewrite dotted_snoc in H. now injection H as <-.
  - apply component_path_error.
Qed.

Lemma X12_component_path_round_trip_witness :
  exists first rest,
    Attribute (Attribute (Name "pkg") "sub") "Thing" = dotted first rest
    /\ "pkg.sub.Thing" = join "." (first :: rest).
Proof.
  exact (proj1 (proj2 (X12_component_path_round_trip
                         (Attribute (Attribute (Name "pkg") "sub") "Thing")))
           "pkg.sub.Thing" eq_refl).
Defined.

(** X13: literal arguments are evaluated in place.  When every argument
    of a descriptor is a literal the argument loop returns the value of
    each, in order and none missing, whatever the registry holds; it
    calls no constructor and raises nothing. *)
Theorem X13_literal_arguments (args : list expr) :
  Forall (fun arg => _is_literal arg = true) args ->
  exists vals,
    Forall2 (fun arg v => literal_eval arg = Some v) args vals /\
    forall definition constructors acc st,
      transform_args definition constructors args acc st
      = (inr (acc ++ vals), st).
Proof.
  induction 1 as [|arg args Harg _ IH].
  - exists []. split; [constructor|]. intros. cbn. now rewrite app_nil_r.
  - destruct IH as (vals & Hvals & Hrun). unfold _is_literal in Harg.
    destruct (literal_eval arg) as [v|] eqn:Hv; [|discriminate].
    exists (v :: vals). split; [now constructor|].
    intros definition constructors acc st. cbn [transform_args].
    unfold bind, transform_arg. rewrite Hv. cbn [ret].
    rewrite Hrun, <- app_assoc. reflexivity.
Qed.

Lemma X13_literal_arguments_witness :
  exists vals,
    Forall2 (fun arg v => literal_eval arg = Some v)
            [Num 1; Str "x"; Tuple [NameConstant None; Num 2]] vals /\
    forall definition constructors acc st,
      transform_args definition constructors
                     [Num 1; Str "x"; Tuple [NameConstant None; Num 2]] acc st
      = (inr (acc ++ vals), st).
Proof.
  apply (X13_literal_arguments [Num 1; Str "x"; Tuple [NameConstant None; Num 2]]).
  repeat constructor.
Defined.

(** What processing one argument can do. *)
Lemma transform_arg_effects (definition : string) (constructors : registry)
    (arg : expr) (st st' : effects) (r : result (list value)) :
  transform_arg definition constructors arg st = (r, st') ->
  members st' = members st /\
  (exists evs, trace st' = trace st ++ evs /\
               Forall (named_constructor_call constructors) evs) /\
  (forall e, r = inl e -> e = AttributeError \/ e = invalid_syntax definition) /\
  (forall new, r = inr new -> List.length new <= 1).
Proof.
  assert (Hsame : forall r0, (r0, st) = (r, st') ->
            (forall e, r0 = inl e -> e = AttributeError \/ e = invalid_syntax definition) ->
            (forall new, r0 = inr new -> List.length new <= 1) ->
            members st' = members st /\
            (exists evs, trace st' = trace st ++ evs /\
                         Forall (named_constructor_call constructors) evs) /\
            (forall e, r = inl e -> e = AttributeError \/ e = invalid_syntax definition) /\
            (forall new, r = inr new -> List.length new <= 1)).
  { intros r0 H He Hn. injection H as <- <-. split; [reflexivity|].
    split; [exists []; split; [now rewrite app_nil_r|constructor]|]. auto. }
  unfold transform_arg. destruct (literal_eval arg) as [v|].
  { intros H. apply (Hsame _ H); [discriminate|].
    intros new Hnew. injection Hnew as <-. cbn. lia. }
  assert (Hdrop : (@inr exn (list value) [], st) = (r, st') ->
            members st' = members st /\
            (exists evs, trace st' = trace st ++ evs /\
                         Forall (named_constructor_call constructors) evs) /\
            (forall e, r = inl e -> e = AttributeError \/ e = invalid_syntax definition) /\
            (forall new, r = inr new -> List.length new <= 1)).
  { intros H. apply (Hsame _ H); [discriminate|].
    intros new Hnew. injection Hnew as <-. cbn. lia. }
  assert (Hattr : (@inl exn (list value) AttributeError, st) = (r, st') ->
            members st' = members st /\
            (exists evs, trace st' = trace st ++ evs /\
                         Forall (named_constructor_call constructors) evs) /\
            (forall e, r = inl e -> e = AttributeError \/ e = invalid_syntax definition) /\
            (forall new, r = inr new -> List.length new <= 1)).
  { intros H. apply (Hsame _ H); [|discriminate].
    intros e He. injection He as <-. now left. }
  assert (Hsyn : (@inl exn (list value) (invalid_syntax definition), st) = (r, st') ->
            members st' = members st /\
            (exists evs, trace st' = trace st ++ evs /\
                         Forall (named_constructor_call constructors) evs) /\
            (forall e, r = inl e -> e = AttributeError \/ e = invalid_syntax definition) /\
            (forall new, r = inr new -> List.length new <= 1)).
  { intros H. apply (Hsame _ H); [|discriminate].
    intros e He. injection He as <-. now right. }
  destruct arg as [n|s|v|id|v attr|func args|elts|elts|v i]; try exact Hdrop.
  destruct func as [n|s|v|id|v attr|func args'|elts|elts|v i]; try exact Hattr.
  destruct (constructors (KName id)) as [f|] eqn:Hf; [|exact Hsyn].
  destruct args as [|[n|s|v|id'|v attr|func args'|elts|elts|v i] [|a args]];
    try exact Hsyn.
  intros H. cbv [bind emit ret] in H. injection H as <- <-. cbn [members trace].
  split; [reflexivity|]. split.
  - eexists. split; [reflexivity|]. constructor; [|constructor].
    exists id, s, f. auto.
  - split; [discriminate|]. intros new Hnew. injection Hnew as <-. cbn. lia.
Qed.

Lemma argument_loop_effects (definition : string)
    (constructors : registry) (args : list expr) (acc : list value)
    (st st' : effects) (r : result (list value)) :
  transform_args definition constructors args acc st = (r, st') ->
  members st' = members st /\
  (exists evs, trace st' = trace st ++ evs /\
               Forall (named_constructor_call constructors) evs) /\
  (forall e, r = inl e -> e = AttributeError \/ e = invalid_syntax definition) /\
  (forall all, r = inr all ->
     exists new, all = acc ++ new /\ List.length new <= List.length args).
Proof.
  revert acc st. induction args as [|arg args IH]; intros acc st H;
    cbn [transform_args] in H.
  - injection H as <- <-. split; [reflexivity|].
    split; [exists []; split; [now rewrite app_nil_r|constructor]|].
    split; [discriminate|]. intros all Hall. injection Hall as <-.
    exists []. now rewrite app_nil_r.
  - apply bind_inv in H.
    destruct H as [(e & H & ->)|(new & st1 & H & Hrest)].
    + destruct (transform_arg_effects _ _ _ _ _ _ H) as (Hm & Hev & Herr & _).
      split; [assumption|]. split; [assumption|]. split; [assumption|discriminate].
    + destruct (transform_arg_effects _ _ _ _ _ _ H)
        as (Hm & (e1 & Ht1 & Hc1) & _ & Hlen).
      destruct (IH _ _ Hrest) as (Hm' & (e2 & Ht2 & Hc2) & Herr & Hall).
      split; [congruence|]. split; [|split; [assumption|]].
      * exists (e1 ++ e2). split; [now rewrite Ht2, Ht1, app_assoc|].
        apply Forall_app. auto.
      * intros all Hr. destruct (Hall all Hr) as (more & -> & Hmore).
        exists (new ++ more). split; [now rewrite app_assoc|].
        rewrite length_app. specialize (Hlen new eq_refl). cbn [List.length]. lia.
Qed.

(** X14: what the argument loop of [_parse_component] does besides
    resolving arguments.  The loop sets no attribute; the calls it makes
    are calls of constructors that the registry holds under a name, each
    on a string; and when it returns, the resolved arguments extend the
    given ones by at most one value per argument. *)
Theorem X14_argument_loop_effects (definition : string)
    (constructors : registry) (args : list expr) (acc : list value)
    (st st' : effects) (r : result (list value)) :
  transform_args definition constructors args acc st = (r, st') ->
  members st' = members st /\
  (exists evs, trace st' = trace st ++ evs /\
               Forall (named_constructor_call constructors) evs) /\
  (forall all, r = inr all ->
     exists new, all = acc ++ new /\ List.length new <= List.length args).
Proof.
  intros H.
  destruct (argument_loop_effects _ _ _ _ _ _ _ H) as (Hm & Hev & _ & Hall).
  auto.
Qed.

Lemma X14_argument_loop_effects_witness :
  members (after_constructor_call sample_effects "data" "path/to/file")
  = members sample_effects.
Proof.
  exact (proj1 (X14_argument_loop_effects "pkg.Thing(data('path/to/file'))"
                  data_constructors [Call (Name "data") [Str "path/to/file"]] []
                  sample_effects
                  (after_constructor_call sample_effects "data" "path/to/file")
                  (inr [VInt 42]) eq_refl)).
Defined.

(** X15: a nested call is accepted in one shape only.  A call of a name
    with no argument, with several, or with an argument that is not a
    string literal raises the ParsingError naming the descriptor even
    when the name is registered, and the registered callable is not
    called; a nested call whose callee is not a plain name (a dotted
    name, a call) raises AttributeError instead. *)
Theorem X15_malformed_nested_call (definition : string)
    (constructors : registry) (func : expr) (constructor_args : list expr)
    (st : effects) :
  ((exists name, func = Name name) ->
   (forall s, constructor_args <> [Str s]) ->
   transform_arg definition constructors (Call func constructor_args) st
   = (inl (ParsingError ("Invalid syntax: " ++ definition)), st)) /\
  ((forall name, func <> Name name) ->
   transform_arg definition constructors (Call func constructor_args) st
   = (inl AttributeError, st)).
Proof.
  unfold transform_arg. cbn [literal_eval]. split.
  - intros [name ->] Hshape.
    destruct (constructors (KName name)) as [f|]; [|reflexivity].
    destruct constructor_args
      as [|[n|s|v|id'|v attr|func args'|elts|elts|v i] [|a args]];
      try reflexivity.
    now destruct (Hshape s).
  - intros Hname.
    destruct func as [n|s|v|id|v attr|func args'|elts|elts|v i];
      try reflexivity.
    now destruct (Hname id).
Qed.

Lemma X15_malformed_nested_call_witness :
  transform_arg "pkg.Thing(data(1))" data_constructors
                (Call (Name "data") [Num 1]) sample_effects
  = (inl (ParsingError "Invalid syntax: pkg.Thing(data(1))"), sample_effects)
  /\ transform_arg "pkg.Thing(a.b('x'))" data_constructors
                   (Call (Attribute (Name "a") "b") [Str "x"]) sample_effects
     = (inl AttributeError, sample_effects).
Proof.
  split.
  - apply (proj1 (X15_malformed_nested_call "pkg.Thing(data(1))"
                    data_constructors (Name "data") [Num 1] sample_effects)).
    + exists "data". reflexivity.
    + intros s H. discriminate H.
  - apply (proj2 (X15_malformed_nested_call "pkg.Thing(a.b('x'))"
                    data_constructors (Attribute (Name "a") "b") [Str "x"]
                    sample_effects)).
    intros name H. discriminate H.
Defined.

(** ** Further properties of the loader *)

(** X16: [_import_by_path] splits a path at its last dot.  For a path
    that holds a dot, the module path and the class name put together
    around a dot give the path back and the class name holds no dot; a
    path without a dot is taken as a class name in the module with the
    empty name. *)
Theorem X16_rpartition_splits_at_last_dot (path : string) :
  (has_dot path = true ->
   path = (fst (rpartition path) ++ "." ++ snd (rpartition path))%string
   /\ has_dot (snd (rpartition path)) = false) /\
  (has_dot path = false -> rpartition path = (EmptyString, path)).
Proof.
  induction path as [|c rest [IHdot IHnone]]; [split; [discriminate|reflexivity]|].
  cbn [rpartition has_dot].
  destruct (has_dot rest) eqn:Hrest.
  - rewrite orb_true_r. split; [intros _|discriminate].
    destruct (IHdot eq_refl) as [Heq Hno].
    destruct (rpartition rest) as [m cl]. cbn [fst snd] in *.
    split; [|assumption]. rewrite Heq at 1. reflexivity.
  - rewrite orb_false_r. destruct (Ascii.eqb_spec c "."%char) as [->|Hne].
    + split; [intros _|discriminate]. cbn. auto.
    + split; [discriminate|reflexivity].
Qed.

Lemma X16_rpartition_splits_at_last_dot_witness :
  "pkg.sub.Thing"
  = (fst (rpartition "pkg.sub.Thing") ++ "." ++ snd (rpartition "pkg.sub.Thing"))%string
  /\ has_dot (snd (rpartition "pkg.sub.Thing")) = false.
Proof.
  exact (proj1 (X16_rpartition_splits_at_last_dot "pkg.sub.Thing") eq_refl).
Defined.

(** The stages of preparing one description. *)
Lemma prep_component_inv (h : host) (constructors : registry)
    (description : string) (st st' : effects) (p : prepared) :
  prep_component h constructors (IStr description) st = (inr p, st') ->
  exists parsed st1 c st2,
    (if has_paren description
     then q <- _parse_component h description constructors ;;
          ret (fst q, Some (snd q))
     else ret (description, None)) st = (inr parsed, st1) /\
    _import_by_path h (fst parsed) = inr c /\
    rebind constructors c (members st1 c) st1 = (inr tt, st2) /\
    read_defaults c st2 = (inr tt, st') /\
    p = match snd parsed with
        | Some args => WithArgs c args
        | None => Bare c
        end.
Proof.
  cbn [prep_component]. intros H.
  apply bind_inv in H. destruct H as [(e & _ & He)|(parsed & st1 & Hparsed & H)];
    [discriminate|].
  apply bind_inv in H. destruct H as [(e & _ & He)|(c & st1' & Himport & H)];
    [discriminate|].
  unfold lift in Himport. injection Himport as Himport <-.
  apply bind_inv in H. destruct H as [(e & _ & He)|(ms & st1' & Hms & H)];
    [discriminate|].
  unfold getmembers in Hms. injection Hms as <- <-.
  apply bind_inv in H. destruct H as [(e & _ & He)|([] & st2 & Hrebind & H)];
    [discriminate|].
  apply bind_inv in H. destruct H as [(e & _ & He)|([] & st3 & Hread & H)];
    [discriminate|].
  unfold ret in H. injection H as <- <-.
  exists parsed, st1, c, st2. auto.
Qed.

Lemma prep_component_shape (h : host) (constructors : registry)
    (description : string) (st st' : effects) (p : prepared) :
  prep_component h constructors (IStr description) st = (inr p, st') ->
  prepared_from h description p.
Proof.
  intros H. destruct (prep_component_inv _ _ _ _ _ _ H)
    as (parsed & st1 & c & st2 & Hparsed & Himport & _ & _ & ->).
  unfold prepared_from. destruct (has_paren description).
  - right. split; [reflexivity|].
    apply bind_inv in Hparsed.
    destruct Hparsed as [(e & _ & He)|(q & st0 & _ & Hq)]; [discriminate|].
    unfold ret in Hq. injection Hq as <- _. cbn [snd]. eauto.
  - left. split; [reflexivity|].
    unfold ret in Hparsed. injection Hparsed as <- _. cbn [fst snd] in *. eauto.
Qed.

Lemma prep_loop_shape (h : host) (constructors : registry)
    (descriptions : list string) :
  forall acc st ps st',
    prep_loop h constructors (map IStr descriptions) acc st = (inr ps, st') ->
    exists new, ps = acc ++ new /\ Forall2 (prepared_from h) descriptions new.
Proof.
  induction descriptions as [|d l IH]; intros acc st ps st' H;
    cbn [map prep_loop] in H.
  - injection H as <- _. exists []. rewrite app_nil_r. split; [reflexivity|constructor].
  - apply bind_inv in H. destruct H as [(e & _ & He)|(p & st1 & Hp & H)];
      [discriminate|].
    destruct (IH _ _ _ _ H) as (new & -> & Hnew).
    exists (p :: new). rewrite <- app_assoc. split; [reflexivity|].
    constructor; [|assumption]. eapply prep_component_shape; eassumption.
Qed.

Lemma instantiate_success (h : host) (ps : list prepared) :
  forall acc st out st',
    instantiate h ps acc st = (inr out, st') ->
    exists new,
      out = acc ++ new /\ Forall2 (stored h) ps new /\
      trace st' = trace st ++ invokes ps /\ members st' = members st.
Proof.
  induction ps as [|p ps IH]; intros acc st out st' H; cbn [instantiate] in H.
  - injection H as <- <-. exists []. rewrite !app_nil_r.
    repeat split. constructor.
  - destruct p as [c|c args|o].
    + destruct (IH _ _ _ _ H) as (new & -> & Hst & Ht & Hm).
      exists (Lifecycle.Obj c :: new). rewrite <- app_assoc.
      repeat split; try assumption. constructor; [reflexivity|assumption].
    + unfold bind, emit, lift in H.
      destruct (instance_of h c args) as [e|o] eqn:Hi; [discriminate|].
      destruct (IH _ _ _ _ H) as (new & -> & Hst & Ht & Hm).
      cbn [trace members] in Ht, Hm.
      exists (o :: new). rewrite <- app_assoc.
      split; [reflexivity|]. split; [constructor; assumption|].
      split; [|assumption]. cbn [invokes flat_map app].
      now rewrite Ht, <- app_assoc.
    + discriminate.
Qed.

(** What a load that succeeds has done. *)
Lemma load_success (h : host) (constructors : registry)
    (component_config : Extractor.node)
    (self_components comps : list Lifecycle.pyref) (st st' : effects) :
  load_components_from_config h constructors component_config self_components st
  = (inr comps, st') ->
  exists descriptions ps new written,
    Extractor._extract_component_list component_config = inr descriptions /\
    Forall2 (prepared_from h) descriptions ps /\
    Forall2 (stored h) ps new /\
    comps = self_components ++ new /\
    trace st' = trace st ++ written ++ invokes ps /\
    (forall e, In e written -> is_invoke e = false).
Proof.
  unfold load_components_from_config, _prep_components. intros H.
  apply bind_inv in H.
  destruct H as [(e & _ & He)|(descriptions & st1 & Hex & H)]; [discriminate|].
  unfold lift in Hex. injection Hex as Hex <-.
  apply bind_inv in H.
  destruct H as [(e & _ & He)|(ps & st2 & Hprep & H)]; [discriminate|].
  apply bind_inv in H.
  destruct H as [(e & _ & He)|(out & st3 & Hinst & H)]; [discriminate|].
  unfold ret in H. injection H as <- <-.
  destruct (prep_loop_shape _ _ _ _ _ _ _ Hprep) as (ps' & Hps & Hshape).
  cbn [app] in Hps. subst ps'.
  destruct (quiet_prep_loop _ _ _ _ _ _ _ Hprep) as (written & Ht & Hq & _).
  destruct (instantiate_success _ _ _ _ _ _ Hinst) as (new & -> & Hst & Ht' & _).
  exists descriptions, ps, new, written. cbn [app].
  repeat split; try assumption. now rewrite Ht', Ht, app_assoc.
Qed.

Lemma filter_none {A : Type} (f : A -> bool) (l : list A) :
  (forall x, In x l -> f x = false) -> filter f l = [].
Proof.
  induction l as [|x l IH]; intros H; [reflexivity|]. cbn.
  rewrite (H x (or_introl eq_refl)). apply IH. intros y Hy. apply H. now right.
Qed.

Lemma invokes_count (h : host) (descriptions : list string) (ps : list prepared) :
  Forall2 (prepared_from h) descriptions ps ->
  filter is_invoke (invokes ps) = invokes ps /\
  List.length (invokes ps) = List.length (filter has_paren descriptions).
Proof.
  induction 1 as [|d p ds ps Hp _ [IHf IHl]]; [split; reflexivity|].
  destruct Hp as [(Hd & c & _ & ->)|(Hd & c & args & ->)];
    cbn [invokes flat_map filter app is_invoke]; rewrite Hd;
    fold (invokes ps); cbn [List.length]; rewrite ?IHf, ?IHl; auto.
Qed.

(** X17: one call for each call-form description, none for the others.
    A call of [load_components_from_config] that succeeds has appended
    one component for every description the extractor returned, behind
    the components already held, and has called a component exactly as
    many times as there are descriptions holding a parenthesis. *)
Theorem X17_load_calls_once_per_call_form (h : host) (constructors : registry)
    (component_config : Extractor.node)
    (self_components comps : list Lifecycle.pyref) (st st' : effects) :
  load_components_from_config h constructors component_config self_components st
  = (inr comps, st') ->
  exists descriptions new evs,
    Extractor._extract_component_list component_config = inr descriptions /\
    comps = self_components ++ new /\
    List.length new = List.length descriptions /\
    trace st' = trace st ++ evs /\
    List.length (filter is_invoke evs)
    = List.length (filter has_paren descriptions).
Proof.
  intros H. destruct (load_success _ _ _ _ _ _ _ H)
    as (descriptions & ps & new & written & Hex & Hshape & Hst & -> & Ht & Hq).
  exists descriptions, new, (written ++ invokes ps).
  split; [assumption|]. split; [reflexivity|]. split; [|split; [assumption|]].
  - rewrite <- (Forall2_length Hst). symmetry. exact (Forall2_length Hshape).
  - destruct (invokes_count h descriptions ps Hshape) as [Hf Hl].
    now rewrite filter_app, (filter_none _ _ Hq), Hf.
Qed.

Lemma X17_load_calls_once_per_call_form_witness :
  exists descriptions new evs,
    Extractor._extract_component_list sample_config = inr descriptions /\
    [Lifecycle.Obj 11] = [] ++ new /\
    List.length new = List.length descriptions /\
    [ReadDict thing_defaults "component_configs" 1;
     Invoke 1 [VInt 1; VStr "x"; VBool true]]
    = trace sample_effects ++ evs /\
    List.length (filter is_invoke evs)
    = List.length (filter has_paren descriptions).
Proof.
  exact (X17_load_calls_once_per_call_form sample_host no_constructors
           sample_config [] [Lifecycle.Obj 11] sample_effects
           {| members := members sample_effects;
              trace := [ReadDict thing_defaults "component_configs" 1;
                        Invoke 1 [VInt 1; VStr "x"; VBool true]] |}
           eq_refl).
Defined.

(** X18: a description without a parenthesis is never called.  After a
    load that succeeds, the component stored for such a description is
    the very object its path resolves to (the class, not an instance of
    it), at the position of the description. *)
Theorem X18_bare_description_stored_uncalled (h : host)
    (constructors : registry) (component_config : Extractor.node)
    (self_components comps : list Lifecycle.pyref) (st st' : effects) :
  load_components_from_config h constructors component_config self_components st
  = (inr comps, st') ->
  exists descriptions new,
    Extractor._extract_component_list component_config = inr descriptions /\
    comps = self_components ++ new /\
    Forall2 (fun description o =>
               has_paren description = false ->
               exists c, _import_by_path h description = inr c /\
                         o = Lifecycle.Obj c)
            descriptions new.
Proof.
  intros H. destruct (load_success _ _ _ _ _ _ _ H)
    as (descriptions & ps & new & written & Hex & Hshape & Hst & -> & _ & _).
  exists descriptions, new. split; [assumption|]. split; [reflexivity|].
  clear - Hshape Hst. revert new Hst.
  induction Hshape as [|d p ds ps Hp _ IH]; intros new Hst;
    inversion Hst as [|p' o ps' new' Ho Hrest]; subst; constructor.
  - intros Hd. destruct Hp as [(_ & c & Hc & ->)|(Hd' & _)]; [|congruence].
    exists c. split; [assumption|exact Ho].
  - now apply IH.
Qed.

Lemma X18_bare_description_stored_uncalled_witness :
  exists descriptions new,
    Extractor._extract_component_list plain_config = inr descriptions /\
    [Lifecycle.Obj 1; Lifecycle.Obj 2] = [] ++ new /\
    Forall2 (fun description o =>
               has_paren description = false ->
               exists c, _import_by_path sample_host description = inr c /\
                         o = Lifecycle.Obj c)
            descriptions new.
Proof.
  exact (X18_bare_description_stored_uncalled sample_host no_constructors
           plain_config [] [Lifecycle.Obj 1; Lifecycle.Obj 2] sample_effects
           {| members := members sample_effects;
              trace := [ReadDict thing_defaults "component_configs" 1] |}
           eq_refl).
Defined.

(** X19: classes and other objects handed to [_prep_components] directly
    are prepared without any effect: a type becomes the pair of itself
    and the empty tuple, any other object is passed through, and neither
    an import, nor a rebinding, nor a read of defaults takes place. *)
Theorem X19_objects_prepared_without_effect (h : host)
    (constructors : registry) (objects : list nat) (st : effects) :
  _prep_components h (map IObj objects) constructors st
  = (inr (map (fun o => if is_type h o then WithArgs o [] else Raw o) objects),
     st).
Proof.
  unfold _prep_components.
  assert (H : forall acc,
             prep_loop h constructors (map IObj objects) acc st
             = (inr (acc ++ map (fun o => if is_type h o then WithArgs o []
                                          else Raw o) objects), st)).
  { induction objects as [|o l IH]; intros acc; cbn [map prep_loop].
    - now rewrite app_nil_r.
    - unfold bind. cbn [prep_component ret]. rewrite IH, <- app_assoc.
      reflexivity. }
  apply (H []).
Qed.

Section Keeps.

Variable R : effects -> effects -> Prop.
Hypothesis R_refl : forall st, R st st.
Hypothesis R_trans : forall st1 st2 st3, R st1 st2 -> R st2 st3 -> R st1 st3.
Hypothesis R_emit :
  forall st e, R st {| members := members st; trace := trace st ++ [e] |}.

Lemma keeps_ret {A : Type} (a : A) : keeps R (ret a).
Proof. intros st r st' H. injection H as _ <-. apply R_refl. Qed.

Lemma keeps_raise {A : Type} (e : exn) : keeps R (@raise A e).
Proof. intros st r st' H. injection H as _ <-. apply R_refl. Qed.

Lemma keeps_lift {A : Type} (x : result A) : keeps R (lift x).
Proof. intros st r st' H. injection H as _ <-. apply R_refl. Qed.

Lemma keeps_getmembers (c : nat) : keeps R (getmembers c).
Proof. intros st r st' H. injection H as _ <-. apply R_refl. Qed.

Lemma keeps_emit (e : event) : keeps R (emit e).
Proof. intros st r st' H. injection H as _ <-. apply R_emit. Qed.

Lemma keeps_bind {A B : Type} (m : M A) (k : A -> M B) :
  keeps R m -> (forall a, keeps R (k a)) -> keeps R (bind m k).
Proof.
  intros Hm Hk st r st' H. apply bind_inv in H.
  destruct H as [(e & H & _)|(a & st1 & H & Hk')].
  - exact (Hm _ _ _ H).
  - eapply R_trans; [exact (Hm _ _ _ H)|exact (Hk a _ _ _ Hk')].
Qed.

(** Appending to the trace is a sequence of [emit]s. *)
Lemma only_logs_keeps (st st' : effects) : only_logs st st' -> R st st'.
Proof.
  intros [Hm [evs Ht]]. destruct st as [m t], st' as [m' t'].
  cbn [members trace] in *. subst.
  induction evs as [|e evs IH] using rev_ind.
  - rewrite app_nil_r. apply R_refl.
  - eapply R_trans; [exact IH|]. rewrite app_assoc.
    apply (R_emit {| members := m; trace := t ++ evs |} e).
Qed.

End Keeps.

Lemma only_logs_refl (st : effects) : only_logs st st.
Proof. split; [reflexivity|]. exists []. now rewrite app_nil_r. Qed.

Lemma only_logs_trans (st1 st2 st3 : effects) :
  only_logs st1 st2 -> only_logs st2 st3 -> only_logs st1 st3.
Proof.
  intros [Hm1 [e1 Ht1]] [Hm2 [e2 Ht2]]. split; [congruence|].
  exists (e1 ++ e2). now rewrite Ht2, Ht1, app_assoc.
Qed.

Lemma only_logs_emit (st : effects) (e : event) :
  only_logs st {| members := members st; trace := trace st ++ [e] |}.
Proof. split; [reflexivity|]. now exists [e]. Qed.

Lemma parse_component_only_logs (h : host) (definition : string)
    (constructors : registry) :
  keeps only_logs (_parse_component h definition constructors).
Proof.
  unfold _parse_component.
  apply keeps_bind;
    [exact only_logs_trans|apply keeps_lift, only_logs_refl|intros body].
  apply keeps_bind;
    [exact only_logs_trans|apply keeps_lift, only_logs_refl|intros call].
  apply keeps_bind;
    [exact only_logs_trans|apply keeps_lift, only_logs_refl|intros component].
  apply keeps_bind;
    [exact only_logs_trans| |intros args; apply keeps_ret, only_logs_refl].
  intros st r st' H.
  destruct (argument_loop_effects _ _ _ _ _ _ _ H) as (Hm & (evs & Ht & _) & _).
  split; [assumption|eauto].
Qed.

Lemma parsed_only_logs (h : host) (constructors : registry)
    (description : string) :
  keeps only_logs
        (if has_paren description
         then p <- _parse_component h description constructors ;;
              ret (fst p, Some (snd p))
         else ret (description, None)).
Proof.
  destruct (has_paren description); [|apply keeps_ret, only_logs_refl].
  apply keeps_bind;
    [exact only_logs_trans|apply parse_component_only_logs|].
  intros a. apply keeps_ret, only_logs_refl.
Qed.

Lemma read_defaults_only_logs (c : nat) : keeps only_logs (read_defaults c).
Proof.
  unfold read_defaults.
  apply keeps_bind;
    [exact only_logs_trans|apply keeps_getmembers, only_logs_refl|intros ms].
  destruct (lookup "configuration_defaults" ms).
  - apply keeps_emit, only_logs_emit.
  - apply keeps_ret, only_logs_refl.
Qed.

Lemma instantiate_only_logs (h : host) (ps : list prepared) :
  forall acc, keeps only_logs (instantiate h ps acc).
Proof.
  induction ps as [|p ps IH]; intros acc; cbn [instantiate].
  - apply keeps_ret, only_logs_refl.
  - destruct p as [c|c args|o].
    + apply IH.
    + apply keeps_bind;
        [exact only_logs_trans|apply keeps_emit, only_logs_emit|intros _].
      apply keeps_bind;
        [exact only_logs_trans|apply keeps_lift, only_logs_refl|intros o; apply IH].
    + apply keeps_raise, only_logs_refl.
Qed.

Lemma update_keys (attr : string) (v : value) (l : list (string * value)) :
  In attr (map fst l) -> map fst (update attr v l) = map fst l.
Proof.
  induction l as [|[a x] l IH]; intros Hin; [destruct Hin|]. cbn [update].
  destruct (String.eqb_spec a attr) as [->|Hne]; [reflexivity|].
  cbn [map fst]. f_equal. apply IH. destruct Hin as [Ha|Hin]; [|assumption].
  cbn in Ha. congruence.
Qed.

Lemma same_keys_refl (st : effects) : same_keys st st.
Proof. intros c. reflexivity. Qed.

Lemma same_keys_trans (st1 st2 st3 : effects) :
  same_keys st1 st2 -> same_keys st2 st3 -> same_keys st1 st3.
Proof. intros H1 H2 c. now rewrite H2, H1. Qed.

Lemma same_keys_emit (st : effects) (e : event) :
  same_keys st {| members := members st; trace := trace st ++ [e] |}.
Proof. intros c. reflexivity. Qed.

Lemma same_members_refl (st : effects) : same_members st st.
Proof. intros c. reflexivity. Qed.

Lemma same_members_trans (st1 st2 st3 : effects) :
  same_members st1 st2 -> same_members st2 st3 -> same_members st1 st3.
Proof. intros H1 H2 c. now rewrite H2, H1. Qed.

Lemma same_members_emit (st : effects) (e : event) :
  same_members st {| members := members st; trace := trace st ++ [e] |}.
Proof. intros c. reflexivity. Qed.

(** Rebinding replaces the values of members that exist: the names of
    the members of every object stay what they were. *)
Lemma rebind_same_keys (constructors : registry) (c : nat)
    (ms : list (string * value)) :
  forall st r st',
    (forall attr, In attr (map fst ms) -> In attr (map fst (members st c))) ->
    rebind constructors c ms st = (r, st') ->
    same_keys st st'.
Proof.
  induction ms as [|[attr val] ms IH]; intros st r st' Hin H; cbn [rebind] in H.
  - injection H as _ <-. apply same_keys_refl.
  - assert (Hin' : forall a, In a (map fst ms) -> In a (map fst (members st c))).
    { intros a Ha. apply Hin. now right. }
    destruct (constructors (KClass (class_of val))) as [f|]; [|eauto].
    cbv [bind emit setattr] in H. cbn [members trace] in H.
    eapply same_keys_trans; [|eapply IH; [|exact H]].
    + intros c'. cbn [members]. destruct (Nat.eqb c' c) eqn:Hc; [|reflexivity].
      apply Nat.eqb_eq in Hc. subst c'. apply update_keys. apply Hin. now left.
    + intros a Ha. cbn [members]. rewrite Nat.eqb_refl.
      rewrite update_keys by (apply Hin; now left). auto.
Qed.

Lemma rebind_no_class_keys (constructors : registry) (c : nat)
    (ms : list (string * value)) (st : effects) :
  (forall cls, constructors (KClass cls) = None) ->
  rebind constructors c ms st = (inr tt, st).
Proof.
  intros Hnone. induction ms as [|[attr val] ms IH]; cbn [rebind];
    [reflexivity|]. now rewrite Hnone.
Qed.

Lemma prep_component_same_keys (h : host) (constructors : registry)
    (i : item) :
  keeps same_keys (prep_component h constructors i).
Proof.
  destruct i as [description|o]; cbn [prep_component];
    [|apply keeps_ret, same_keys_refl].
  apply keeps_bind; [exact same_keys_trans| |intros parsed].
  { intros st r st' H. apply only_logs_keeps;
      eauto using same_keys_refl, same_keys_trans, same_keys_emit.
    exact (parsed_only_logs _ _ _ _ _ _ H). }
  apply keeps_bind; [exact same_keys_trans|apply keeps_lift, same_keys_refl|].
  intros c st r st' H. unfold bind at 1, getmembers in H.
  apply bind_inv in H.
  assert (Hrebind : forall r0 st0,
             rebind constructors c (members st c) st = (r0, st0) ->
             same_keys st st0).
  { intros r0 st0. apply rebind_same_keys. auto. }
  destruct H as [(e & H & _)|([] & st1 & H & Hk)]; [eauto|].
  eapply same_keys_trans; [eauto|].
  apply bind_inv in Hk. destruct Hk as [(e & Hk & _)|([] & st2 & Hk & Hret)].
  - apply only_logs_keeps;
      eauto using same_keys_refl, same_keys_trans, same_keys_emit.
    exact (read_defaults_only_logs _ _ _ _ Hk).
  - unfold ret in Hret. injection Hret as _ <-.
    apply only_logs_keeps;
      eauto using same_keys_refl, same_keys_trans, same_keys_emit.
    exact (read_defaults_only_logs _ _ _ _ Hk).
Qed.

Lemma prep_component_same_members (h : host) (constructors : registry)
    (i : item) :
  (forall cls, constructors (KClass cls) = None) ->
  keeps same_members (prep_component h constructors i).
Proof.
  intros Hnone. destruct i as [description|o]; cbn [prep_component];
    [|apply keeps_ret, same_members_refl].
  apply keeps_bind; [exact same_members_trans| |intros parsed].
  { intros st r st' H. apply only_logs_keeps;
      eauto using same_members_refl, same_members_trans, same_members_emit.
    exact (parsed_only_logs _ _ _ _ _ _ H). }
  apply keeps_bind; [exact same_members_trans|apply keeps_lift, same_members_refl|].
  intros c. apply keeps_bind;
    [exact same_members_trans|apply keeps_getmembers, same_members_refl|].
  intros ms. apply keeps_bind; [exact same_members_trans| |intros _].
  { intros st r st' H. rewrite (rebind_no_class_keys _ _ _ _ Hnone) in H.
    injection H as _ <-. apply same_members_refl. }
  apply keeps_bind; [exact same_members_trans| |intros _; apply keeps_ret, same_members_refl].
  intros st r st' H. apply only_logs_keeps;
    eauto using same_members_refl, same_members_trans, same_members_emit.
  exact (read_defaults_only_logs _ _ _ _ H).
Qed.

Lemma prep_loop_keeps (R : effects -> effects -> Prop) (h : host)
    (constructors : registry) :
  (forall st, R st st) ->
  (forall st1 st2 st3, R st1 st2 -> R st2 st3 -> R st1 st3) ->
  (forall i, keeps R (prep_component h constructors i)) ->
  forall l acc, keeps R (prep_loop h constructors l acc).
Proof.
  intros Hrefl Htrans Hone. induction l as [|i l IH]; intros acc;
    cbn [prep_loop].
  - now apply keeps_ret.
  - apply keeps_bind; auto.
Qed.

Lemma load_keeps (R : effects -> effects -> Prop) (h : host)
    (constructors : registry) (component_config : Extractor.node)
    (self_components : list Lifecycle.pyref) :
  (forall st, R st st) ->
  (forall st1 st2 st3, R st1 st2 -> R st2 st3 -> R st1 st3) ->
  (forall st e, R st {| members := members st; trace := trace st ++ [e] |}) ->
  (forall i, keeps R (prep_component h constructors i)) ->
  keeps R (load_components_from_config h constructors component_config
             self_components).
Proof.
  intros Hrefl Htrans Hemit Hone. unfold load_components_from_config.
  apply keeps_bind; [assumption|now apply keeps_lift|intros descriptions].
  apply keeps_bind; [assumption| |intros ps].
  { unfold _prep_components. now apply prep_loop_keeps. }
  apply keeps_bind; [assumption| |intros out; now apply keeps_ret].
  intros st r st' H. apply only_logs_keeps; auto.
  exact (instantiate_only_logs _ _ _ _ _ _ H).
Qed.

(** X20: loading rebinds, it does not reshape.  However a call of
    [load_components_from_config] ends, every object has the members it
    had before, by name and in the same order: rebinding only replaces
    the value of a member that exists.  When the registry holds no
    constructor under a class, not even a value changes. *)
Theorem X20_loading_keeps_member_names (h : host) (constructors : registry)
    (component_config : Extractor.node)
    (self_components : list Lifecycle.pyref) (st st' : effects)
    (r : result (list Lifecycle.pyref)) :
  load_components_from_config h constructors component_config self_components st
  = (r, st') ->
  (forall c, map fst (members st' c) = map fst (members st c)) /\
  ((forall cls, constructors (KClass cls) = None) ->
   forall c, members st' c = members st c).
Proof.
  intros H. split.
  - apply (load_keeps same_keys h constructors component_config self_components
             same_keys_refl same_keys_trans same_keys_emit
             (prep_component_same_keys h constructors) st r st' H).
  - intros Hnone.
    apply (load_keeps same_members h constructors component_config
             self_components same_members_refl same_members_trans
             same_members_emit
             (fun i => prep_component_same_members h constructors i Hnone)
             st r st' H).
Qed.

Lemma X20_loading_keeps_member_names_witness :
  map fst (members (snd (load_components_from_config sample_host int_constructors
                           plain_config [] table_effects)) 1)
  = map fst (members table_effects 1).
Proof.
  exact (proj1 (X20_loading_keeps_member_names sample_host int_constructors
                  plain_config [] table_effects
                  (snd (load_components_from_config sample_host int_constructors
                          plain_config [] table_effects))
                  (fst (load_components_from_config sample_host int_constructors
                          plain_config [] table_effects))
                  eq_refl) 1).
Defined.

Example rebinding_replaces_value :
  members (snd (load_components_from_config sample_host int_constructors
                  plain_config [] table_effects)) 1
  = [("configuration_defaults", thing_defaults); ("table", VObject "Table" 7)].
Proof. reflexivity. Qed.

(** ** Defaults are written before the component is called *)

Lemma rebind_returns (constructors : registry) (c : nat)
    (ms : list (string * value)) :
  forall st, fst (rebind constructors c ms st) = inr tt.
Proof.
  induction ms as [|[attr val] ms IH]; intros st; cbn [rebind]; [reflexivity|].
  destruct (constructors (KClass (class_of val))) as [f|]; [|apply IH].
  cbv [bind emit setattr]. apply IH.
Qed.

Lemma read_defaults_returns (c : nat) (st : effects) :
  fst (read_defaults c st) = inr tt.
Proof.
  unfold read_defaults, bind, getmembers.
  now destruct (lookup "configuration_defaults" (members st c)).
Qed.

(** The members after a rebinding depend on the members before it only. *)
Lemma rebind_members (constructors : registry) (c : nat)
    (ms : list (string * value)) :
  forall s1 s2,
    members s1 = members s2 ->
    members (snd (rebind constructors c ms s1))
    = members (snd (rebind constructors c ms s2)).
Proof.
  induction ms as [|[attr val] ms IH]; intros s1 s2 H; cbn [rebind];
    [exact H|].
  destruct (constructors (KClass (class_of val))) as [f|]; [|now apply IH].
  cbv [bind emit setattr]. apply IH. cbn [members]. now rewrite H.
Qed.

Lemma rebind_unregistered (constructors : registry) (c : nat)
    (ms : list (string * value)) (st : effects) :
  (forall attr val, In (attr, val) ms ->
                    constructors (KClass (class_of val)) = None) ->
  rebind constructors c ms st = (inr tt, st).
Proof.
  induction ms as [|[attr val] ms IH]; intros H; cbn [rebind]; [reflexivity|].
  rewrite (H attr val (or_introl eq_refl)). apply IH.
  intros a v Hin. apply (H a v). now right.
Qed.

Lemma rebind_other_object (constructors : registry) (c c' : nat)
    (ms : list (string * value)) :
  c' <> c ->
  forall st, members (snd (rebind constructors c' ms st)) c = members st c.
Proof.
  intros Hne. induction ms as [|[attr val] ms IH]; intros st; cbn [rebind];
    [reflexivity|].
  destruct (constructors (KClass (class_of val))) as [f|]; [|apply IH].
  cbv [bind emit setattr]. rewrite IH. cbn [members].
  destruct (Nat.eqb c c') eqn:E; [|reflexivity].
  apply Nat.eqb_eq in E. congruence.
Qed.

(** A description the interpreter resolves is prepared, in any
    surroundings. *)
Lemma resolves_prepared (h : host) (constructors : registry)
    (description : string) (p : prepared) :
  resolves h constructors description p ->
  forall st, fst (prep_component h constructors (IStr description) st) = inr p.
Proof.
  unfold resolves. intros H st. cbn [prep_component].
  destruct (has_paren description).
  - destruct H as (path & args & c & Hparse & Himport & ->).
    specialize (Hparse st). unfold bind, ret, lift, getmembers.
    destruct (_parse_component h description constructors st)
      as [[e|[path' args']] s1]; cbn [fst] in Hparse; [discriminate|].
    injection Hparse as -> ->. cbn [fst snd]. rewrite Himport.
    pose proof (rebind_returns constructors c (members s1 c) s1) as Hr.
    destruct (rebind constructors c (members s1 c) s1) as [[e|[]] s2];
      cbn [fst] in Hr; [discriminate|].
    pose proof (read_defaults_returns c s2) as Hd.
    destruct (read_defaults c s2) as [[e|[]] s3]; cbn [fst] in Hd;
      [discriminate|]. reflexivity.
  - destruct H as (c & Himport & ->).
    unfold bind, ret, lift, getmembers. cbn [fst snd]. rewrite Himport.
    pose proof (rebind_returns constructors c (members st c) st) as Hr.
    destruct (rebind constructors c (members st c) st) as [[e|[]] s2];
      cbn [fst] in Hr; [discriminate|].
    pose proof (read_defaults_returns c s2) as Hd.
    destruct (read_defaults c s2) as [[e|[]] s3]; cbn [fst] in Hd;
      [discriminate|]. reflexivity.
Qed.

Lemma resolves_prep_loop (h : host) (constructors : registry)
    (descriptions : list string) (ps : list prepared) :
  Forall2 (resolves h constructors) descriptions ps ->
  forall acc st,
    fst (prep_loop h constructors (map IStr descriptions) acc st)
    = inr (acc ++ ps).
Proof.
  induction 1 as [|d p ds ps Hd _ IH]; intros acc st; cbn [map prep_loop].
  - unfold ret. cbn [fst]. now rewrite app_nil_r.
  - unfold bind. pose proof (resolves_prepared _ _ _ _ Hd st) as Hp.
    destruct (prep_component h constructors (IStr d) st) as [[e|p'] s1];
      cbn [fst] in Hp; [discriminate|].
    injection Hp as ->. rewrite IH, <- app_assoc. reflexivity.
Qed.

Lemma resolves_not_raw (h : host) (constructors : registry)
    (descriptions : list string) (ps : list prepared) :
  Forall2 (resolves h constructors) descriptions ps ->
  forall o, ~ In (Raw o) ps.
Proof.
  induction 1 as [|d p ds ps Hd _ IH]; intros o Hin; [exact Hin|].
  destruct Hin as [Heq|Hin]; [|exact (IH o Hin)].
  unfold resolves in Hd. destruct (has_paren d).
  - destruct Hd as (path & args & c & _ & _ & ->). discriminate.
  - destruct Hd as (c & _ & ->). discriminate.
Qed.

(** The loop of [_prep_components] over two stretches of a list. *)
Lemma prep_loop_app (h : host) (constructors : registry) (l1 l2 : list item) :
  forall acc st,
    prep_loop h constructors (l1 ++ l2) acc st
    = (acc' <- prep_loop h constructors l1 acc ;;
       prep_loop h constructors l2 acc') st.
Proof.
  induction l1 as [|i l1 IH]; intros acc st; cbn [app prep_loop].
  - reflexivity.
  - unfold bind.
    destruct (prep_component h constructors i st) as [[e|p] s1]; [reflexivity|].
    rewrite IH. reflexivity.
Qed.

(** While no attribute of [c] is of a class with a registered
    constructor, preparing descriptions leaves the attributes of [c] as
    they are. *)
Lemma prep_component_unrebound (h : host) (constructors : registry)
    (description : string) (c : nat) (st st' : effects) (p : prepared) :
  prep_component h constructors (IStr description) st = (inr p, st') ->
  (forall attr val, In (attr, val) (members st c) ->
                    constructors (KClass (class_of val)) = None) ->
  members st' c = members st c.
Proof.
  intros H Hnone.
  destruct (prep_component_inv _ _ _ _ _ _ H)
    as (parsed & st1 & c' & st2 & Hparsed & _ & Hrebind & Hread & _).
  destruct (parsed_only_logs _ _ _ _ _ _ Hparsed) as [Hm1 _].
  destruct (read_defaults_only_logs _ _ _ _ Hread) as [Hm3 _].
  rewrite Hm3, <- Hm1.
  destruct (Nat.eq_dec c' c) as [->|Hne].
  - rewrite rebind_unregistered in Hrebind by (rewrite Hm1; exact Hnone).
    now injection Hrebind as <-.
  - pose proof (rebind_other_object constructors c c' (members st1 c') Hne st1)
      as Ho.
    rewrite Hrebind in Ho. exact Ho.
Qed.

Lemma prep_loop_unrebound (h : host) (constructors : registry) (c : nat)
    (descriptions : list string) :
  forall acc st ps st',
    prep_loop h constructors (map IStr descriptions) acc st = (inr ps, st') ->
    (forall attr val, In (attr, val) (members st c) ->
                      constructors (KClass (class_of val)) = None) ->
    members st' c = members st c.
Proof.
  induction descriptions as [|d ds IH]; intros acc st ps st' H Hnone;
    cbn [map prep_loop] in H.
  - now injection H as _ <-.
  - apply bind_inv in H. destruct H as [(e & _ & He)|(p & st1 & Hp & H)];
      [discriminate|].
    pose proof (prep_component_unrebound _ _ _ _ _ _ _ Hp Hnone) as H1.
    rewrite <- H1. eapply IH; [exact H|]. now rewrite H1.
Qed.

(** The second loop reaches an entry when the calls before it return. *)
Lemma instantiate_reaches (h : host) (ps1 : list prepared) (c : nat)
    (args : list value) (ps2 : list prepared) :
  (forall o, ~ In (Raw o) ps1) ->
  (forall c' args', In (WithArgs c' args') ps1 ->
                    exists o, instance_of h c' args' = inr o) ->
  forall acc st, exists post,
    trace (snd (instantiate h (ps1 ++ WithArgs c args :: ps2) acc st))
    = trace st ++ invokes ps1 ++ Invoke c args :: post.
Proof.
  unfold invokes.
  induction ps1 as [|p ps1 IH]; intros Hraw Hinst acc st;
    cbn [app instantiate flat_map].
  - cbv [bind emit lift]. destruct (instance_of h c args) as [e|o].
    + exists []. reflexivity.
    + destruct (instantiate h ps2 (acc ++ [o])
                  {| members := members st;
                     trace := trace st ++ [Invoke c args] |})
        as [r s'] eqn:E.
      destruct (instantiate_only_logs _ _ _ _ _ _ E) as [_ [evs Ht]].
      cbn [trace] in Ht. exists evs. cbn [snd]. rewrite Ht, <- app_assoc.
      reflexivity.
  - assert (Hraw' : forall o, ~ In (Raw o) ps1).
    { intros o Hin. apply (Hraw o). now right. }
    assert (Hinst' : forall c' args', In (WithArgs c' args') ps1 ->
                                      exists o, instance_of h c' args' = inr o).
    { intros c' args' Hin. apply Hinst. now right. }
    destruct p as [c0|c0 args0|o].
    + apply IH; assumption.
    + destruct (Hinst c0 args0 (or_introl eq_refl)) as [o Ho].
      cbv [bind emit lift]. rewrite Ho.
      destruct (IH Hraw' Hinst' (acc ++ [o])
                  {| members := members st;
                     trace := trace st ++ [Invoke c0 args0] |})
        as [post Hpost].
      exists post. rewrite Hpost. cbn [trace]. rewrite <- !app_assoc.
      reflexivity.
    + exfalso. apply (Hraw o). now left.
Qed.

(** C6: take a configuration whose descriptions the interpreter
    resolves, a call-form description among them that resolves to the
    callable [c] with the arguments [args], and calls that return for the
    descriptions listed before it.  If the type [c] declares
    [configuration_defaults], then [load_components_from_config] writes
    them into the store under the [component_configs] layer, with [c] as
    source, and calls [c] with [args] later: the write stands in the
    first stretch of the calls made, which holds no call of a component,
    and the call of [c] stands in the stretch that follows, right after
    the calls for the call forms listed before the description.  What is
    written is the value that the attribute holds once the attributes of
    [c] have been rebound for the description; it is the value declared
    when no attribute of [c] is of a class that has a constructor in the
    registry. *)
Theorem C6_defaults_written_before_invocation (h : host)
    (constructors : registry) (component_config : Extractor.node)
    (self_components : list Lifecycle.pyref) (st : effects)
    (before after : list string) (description : string)
    (ps1 ps2 : list prepared) (c : nat) (args : list value) (declared : value) :
  Extractor._extract_component_list component_config
  = inr (before ++ description :: after) ->
  has_paren description = true ->
  Forall2 (resolves h constructors) before ps1 ->
  resolves h constructors description (WithArgs c args) ->
  Forall2 (resolves h constructors) after ps2 ->
  (forall c' args', In (WithArgs c' args') ps1 ->
                    exists o, instance_of h c' args' = inr o) ->
  lookup "configuration_defaults" (members st c) = Some declared ->
  exists d written_before written_after post,
    trace (snd (load_components_from_config h constructors component_config
                  self_components st))
    = trace st
        ++ (written_before ++ ReadDict d "component_configs" c :: written_after)
        ++ (invokes ps1 ++ Invoke c args :: post) /\
    (forall e, In e (written_before ++ written_after) -> is_invoke e = false) /\
    lookup "configuration_defaults"
           (members (rebound h constructors before c st) c) = Some d /\
    ((forall attr val, In (attr, val) (members st c) ->
                       constructors (KClass (class_of val)) = None) ->
     d = declared).
Proof.
  intros Hex Hparen Hbefore Hdesc Hafter Hinst Hdeclared.
  unfold load_components_from_config, rebound, _prep_components.
  unfold bind at 1. unfold lift. rewrite Hex.
  unfold bind at 1.
  rewrite map_app, prep_loop_app. cbn [map]. unfold bind at 1.
  pose proof (resolves_prep_loop _ _ _ _ Hbefore [] st) as H1.
  destruct (prep_loop h constructors (map IStr before) [] st)
    as [r1 st_i] eqn:Hloop1.
  cbn [fst app] in H1. subst r1. cbn [snd].
  destruct (quiet_prep_loop _ _ _ _ _ _ _ Hloop1) as (e1 & Ht1 & Hq1 & Ha1).
  cbn [prep_loop]. unfold bind at 1.
  pose proof (resolves_prepared _ _ _ _ Hdesc st_i) as H2.
  destruct (prep_component h constructors (IStr description) st_i)
    as [r2 st_d] eqn:Hprep.
  cbn [fst] in H2. subst r2.
  destruct (prep_component_inv _ _ _ _ _ _ Hprep)
    as (parsed & st_p & c0 & st_r & Hparsed & Himport & Hrebind & Hread & Hp).
  assert (c0 = c) as ->.
  { destruct (snd parsed); [now injection Hp as ->|discriminate]. }
  destruct (quiet_parsed _ _ _ _ _ _ Hparsed) as (e2 & Ht2 & Hq2 & Ha2).
  destruct (parsed_only_logs _ _ _ _ _ _ Hparsed) as [Hm2 _].
  destruct (quiet_rebind _ _ _ _ _ _ Hrebind) as (e3 & Ht3 & Hq3 & Ha3).
  assert (Hattr : has_attr st_r c "configuration_defaults").
  { apply Ha3, Ha2, Ha1. unfold has_attr. now rewrite Hdeclared. }
  unfold has_attr in Hattr.
  destruct (lookup "configuration_defaults" (members st_r c)) as [d|] eqn:Hd;
    [clear Hattr|congruence].
  assert (Htd : st_d = {| members := members st_r;
                          trace := trace st_r
                                   ++ [ReadDict d "component_configs" c] |}).
  { unfold read_defaults, bind, getmembers in Hread. rewrite Hd in Hread.
    unfold emit in Hread. now injection Hread as <-. }
  pose proof (resolves_prep_loop _ _ _ _ Hafter (ps1 ++ [WithArgs c args])
                st_d) as H3.
  destruct (prep_loop h constructors (map IStr after)
              (ps1 ++ [WithArgs c args]) st_d) as [r3 st2] eqn:Hloop2.
  cbn [fst app] in H3. subst r3.
  destruct (quiet_prep_loop _ _ _ _ _ _ _ Hloop2) as (e4 & Ht4 & Hq4 & _).
  unfold bind at 1.
  destruct (instantiate_reaches h ps1 c args ps2
              (resolves_not_raw _ _ _ _ Hbefore) Hinst [] st2) as [post Hpost].
  exists d, (e1 ++ e2 ++ e3), e4, post. split; [|split; [|split]].
  - replace ((ps1 ++ [WithArgs c args]) ++ ps2)
      with (ps1 ++ WithArgs c args :: ps2) by now rewrite <- app_assoc.
    destruct (instantiate h (ps1 ++ WithArgs c args :: ps2) [] st2)
      as [[e|out] st3]; cbn [snd] in Hpost |- *; unfold ret; cbn [snd];
      rewrite Hpost, Ht4, Htd; cbn [trace]; rewrite Ht3, Ht2, Ht1;
      now rewrite <- !app_assoc.
  - intros e Hin. repeat (apply in_app_or in Hin; destruct Hin as [Hin|Hin]);
      auto.
  - rewrite <- Hd. f_equal.
    pose proof (rebind_members constructors c (members st_i c) st_i st_p
                  (eq_sym Hm2)) as Hm.
    rewrite Hm2 in Hrebind. rewrite Hrebind in Hm. cbn [snd] in Hm.
    now rewrite Hm.
  - intros Hnone.
    pose proof (prep_loop_unrebound _ _ c _ _ _ _ _ Hloop1 Hnone) as Hi.
    rewrite rebind_unregistered in Hrebind
      by (rewrite Hm2, Hi; exact Hnone).
    injection Hrebind as <-. rewrite Hm2, Hi, Hdeclared in Hd.
    now injection Hd as ->.
Qed.

Lemma C6_defaults_written_before_invocation_witness :
  exists d written_before written_after post,
    trace (snd (load_components_from_config sample_host no_constructors
                  mixed_config [] sample_effects))
    = trace sample_effects
        ++ (written_before ++ ReadDict d "component_configs" 1 :: written_after)
        ++ (invokes [Bare 2] ++ Invoke 1 [VInt 1; VStr "x"; VBool true] :: post) /\
    (forall e, In e (written_before ++ written_after) -> is_invoke e = false) /\
    lookup "configuration_defaults"
           (members (rebound sample_host no_constructors ["pkg.Plain"] 1
                       sample_effects) 1) = Some d /\
    ((forall attr val, In (attr, val) (members sample_effects 1) ->
                       no_constructors (KClass (class_of val)) = None) ->
     d = thing_defaults).
Proof.
  apply (C6_defaults_written_before_invocation sample_host no_constructors
           mixed_config [] sample_effects ["pkg.Plain"] []
           "pkg.Thing(1, 'x', True)" [Bare 2] []
           1 [VInt 1; VStr "x"; VBool true] thing_defaults).
  - reflexivity.
  - reflexivity.
  - constructor; [|constructor]. exists 2. split; reflexivity.
  - exists "pkg.Thing", [VInt 1; VStr "x"; VBool true], 1.
    split; [intros st; reflexivity|]. split; reflexivity.
  - constructor.
  - intros c' args' [H|[]]. discriminate.
  - reflexivity.
Defined.

(** * Properties of the creation of the manager *)

(** X21: without a [configuration] section nothing is imported and
    nothing is written.  For a specification that is a mapping without
    that key, [load_component_manager] succeeds whatever the import
    system holds: it chooses the default manager class, hands it the
    supplied dataset manager or else a fresh placeholder, the value under
    [components] or else an empty mapping, and writes nothing to the
    [model_override] layer.  Loading from that empty mapping then adds no
    component and has no effect. *)
Theorem X21_defaults_without_configuration (h : host)
    (items : list (string * Extractor.node)) (supplied : option nat) :
  Manager.lookup_key "configuration" items = None ->
  Manager.load_component_manager h (Extractor.NDict items) supplied
  = inr {| Manager.manager := Manager.ComponentManager;
           Manager.component_config :=
             match Manager.lookup_key "components" items with
             | Some components => components
             | None => Extractor.NDict []
             end;
           Manager.dataset :=
             match supplied with
             | Some o => Manager.Supplied o
             | None => Manager.DummyDatasetManager
             end;
           Manager.model_override := None |}
  /\ forall constructors self_components st,
       load_components_from_config h constructors (Extractor.NDict [])
                                   self_components st
       = (inr self_components, st).
Proof.
  intros Hnone. split.
  - unfold Manager.load_component_manager, Manager.choose_manager,
      Manager.choose_dataset_manager, Manager.setting, Manager.get.
    rewrite Hnone. cbn. destruct supplied; reflexivity.
  - intros constructors self_components st.
    unfold load_components_from_config. cbn. now rewrite app_nil_r.
Qed.

Lemma X21_defaults_without_configuration_witness :
  Manager.load_component_manager sample_host
    (Extractor.NDict [("components", Extractor.NList [Extractor.NStr "pkg.Thing"])])
    None
  = inr {| Manager.manager := Manager.ComponentManager;
           Manager.component_config := Extractor.NList [Extractor.NStr "pkg.Thing"];
           Manager.dataset := Manager.DummyDatasetManager;
           Manager.model_override := None |}.
Proof.
  exact (proj1 (X21_defaults_without_configuration sample_host
                  [("components", Extractor.NList [Extractor.NStr "pkg.Thing"])]
                  None eq_refl)).
Defined.

(** X22: a section that is present but is not a mapping is an error, not
    a default.  When the specification itself is not a mapping, or its
    [configuration] entry is not one (a section left empty reads as
    [None]), or the [vivarium] entry of that section is not one,
    [load_component_manager] raises AttributeError; it does not fall back
    to the default classes. *)
Theorem X22_malformed_section_raises (h : host) (cfg : Extractor.node)
    (supplied : option nat) :
  (forall items, cfg <> Extractor.NDict items) \/
  (exists items section,
      cfg = Extractor.NDict items /\
      Manager.lookup_key "configuration" items = Some section /\
      ((forall entries, section <> Extractor.NDict entries) \/
       exists entries vivarium,
         section = Extractor.NDict entries /\
         Manager.lookup_key "vivarium" entries = Some vivarium /\
         forall settings, vivarium <> Extractor.NDict settings)) ->
  Manager.load_component_manager h cfg supplied = inl AttributeError.
Proof.
  unfold Manager.load_component_manager, Manager.choose_manager, Manager.setting.
  intros [Hcfg|(items & section & -> & Hsec & Hbad)].
  - destruct cfg as [s|z| |l|items]; try reflexivity. now destruct (Hcfg items).
  - cbn [Manager.get]. rewrite Hsec.
    destruct Hbad as [Hsection|(entries & vivarium & -> & Hviv & Hbad)].
    + destruct section as [s|z| |l|entries]; try reflexivity.
      now destruct (Hsection entries).
    + cbn [Manager.get]. rewrite Hviv.
      destruct vivarium as [s|z| |l|settings]; try reflexivity.
      now destruct (Hbad settings).
Qed.

Lemma X22_malformed_section_raises_witness :
  Manager.load_component_manager sample_host Manager.empty_section_config None
  = inl AttributeError.
Proof.
  apply X22_malformed_section_raises. right.
  exists [("configuration", Extractor.NNone)], Extractor.NNone.
  split; [reflexivity|]. split; [reflexivity|]. left.
  intros entries H. discriminate H.
Defined.

(** X23: a supplied dataset manager wins.  With a dataset manager
    supplied by the caller, [load_component_manager] succeeds exactly
    when the specification is a mapping and the manager class can be
    chosen; the [dataset_manager] setting plays no part, so a class named
    there is not imported.  The manager then receives the supplied
    dataset manager and the value under [components] (or an empty
    mapping), and the [configuration] section is written to the
    [model_override] layer if and only if the key is present. *)
Theorem X23_supplied_dataset_manager_wins (h : host) (cfg : Extractor.node)
    (o : nat) (l : Manager.loaded) :
  Manager.load_component_manager h cfg (Some o) = inr l <->
  exists cls items,
    Manager.choose_manager h cfg = inr cls /\
    cfg = Extractor.NDict items /\
    l = {| Manager.manager := cls;
           Manager.component_config :=
             match Manager.lookup_key "components" items with
             | Some components => components
             | None => Extractor.NDict []
             end;
           Manager.dataset := Manager.Supplied o;
           Manager.model_override := Manager.lookup_key "configuration" items |}.
Proof.
  unfold Manager.load_component_manager. cbn [Manager.choose_dataset_manager].
  split.
  - destruct (Manager.choose_manager h cfg) as [e|cls] eqn:Hcls; [discriminate|].
    destruct cfg as [s|z| |elts|items]; cbn [Manager.get]; try discriminate.
    intros H. injection H as <-. exists cls, items. auto.
  - intros (cls & items & Hcls & -> & ->). rewrite Hcls. reflexivity.
Qed.

Lemma X23_supplied_dataset_manager_wins_witness :
  exists cls items,
    Manager.choose_manager sample_host Manager.custom_dataset_config = inr cls /\
    Manager.custom_dataset_config = Extractor.NDict items /\
    {| Manager.manager := Manager.ComponentManager;
       Manager.component_config := Extractor.NList [Extractor.NStr "pkg.Thing"];
       Manager.dataset := Manager.Supplied 9;
       Manager.model_override :=
         Some (Extractor.NDict
                 [("vivarium",
                   Extractor.NDict [("dataset_manager", Extractor.NStr "pkg.Plain")])]) |}
    = {| Manager.manager := cls;
         Manager.component_config :=
           match Manager.lookup_key "components" items with
           | Some components => components
           | None => Extractor.NDict []
           end;
         Manager.dataset := Manager.Supplied 9;
         Manager.model_override := Manager.lookup_key "configuration" items |}.
Proof.
  exact (proj1 (X23_supplied_dataset_manager_wins sample_host
                  Manager.custom_dataset_config 9 _) eq_refl).
Defined.
